(** * Email-open tracker: the pixel, stats and health handlers

    A shallow embedding of [tracker_app.py].  The three Flask views are
    functions over an explicit world (the log file and the diagnostic
    stream); the clock and the failures of the file system are inputs.
    Python values are modelled as the interpreter has them: a [str] is a
    sequence of code points, an [int] is unbounded, a [float] is a
    binary64 value obtained by correct rounding. *)

From Stdlib Require Import ZArith NArith Ascii String DecimalString Lia.
From Stdlib Require Strings.Byte.
From stdpp Require Import base list gmap sets.

Local Open Scope N_scope.
Local Open Scope list_scope.

(** ** Python runtime: text *)

Module Py.

(** A [str] is a sequence of Unicode code points. *)
Abbreviation char := N (only parsing).
Abbreviation str := (list N) (only parsing).

(** A literal of the source, written as a Rocq string of ASCII characters. *)
Definition lit (s : string) : str := N_of_ascii <$> list_ascii_of_string s.

Definition LF : char := 10.
Definition CR : char := 13.
Definition PIPE : char := 124.
Definition QUOTE : char := 34.

(** [str.isspace] on one code point (the table behind
    [_PyUnicode_IsWhitespace]); [str.strip()] removes exactly these. *)
Definition is_whitespace (c : char) : bool :=
  ((9 <=? c) && (c <=? 13)) || ((28 <=? c) && (c <=? 32))
  || (c =? 133) || (c =? 160) || (c =? 5760)
  || ((8192 <=? c) && (c <=? 8202))
  || (c =? 8232) || (c =? 8233) || (c =? 8239) || (c =? 8287) || (c =? 12288).

Fixpoint lstrip (s : str) : str :=
  match s with
  | [] => []
  | c :: s' => if is_whitespace c then lstrip s' else s
  end.

Definition rstrip (s : str) : str := reverse (lstrip (reverse s)).

(** [s.strip()] *)
Definition strip (s : str) : str := rstrip (lstrip s).

(** [s.split(sep)] for a separator of one character: never the empty
    list, and [n] separators give [n + 1] parts. *)
Fixpoint split (sep : char) (s : str) : list str :=
  match s with
  | [] => [[]]
  | c :: s' =>
      if c =? sep then [] :: split sep s'
      else match split sep s' with
           | [] => [[c]]
           | p :: ps => (c :: p) :: ps
           end
  end.

(** [s.count(c)] *)
Definition count_char (c : char) (s : str) : nat :=
  length (filter (λ d, d = c) s).

(** [s.removeprefix(p)], when [s] starts with [p] *)
Fixpoint strip_prefix (p s : str) : option str :=
  match p, s with
  | [], _ => Some s
  | a :: p', b :: s' => if a =? b then strip_prefix p' s' else None
  | _ :: _, [] => None
  end.

Definition strip_suffix (p s : str) : option str :=
  reverse <$> strip_prefix (reverse p) (reverse s).

(** Text-mode reading with universal newlines: [\r\n] and a lone [\r]
    are both read as [\n]. *)
Fixpoint translate_newlines (s : str) : str :=
  match s with
  | [] => []
  | c :: s' =>
      if c =? CR then
        LF :: match s' with
              | d :: s'' => if d =? LF then translate_newlines s''
                            else translate_newlines s'
              | [] => []
              end
      else c :: translate_newlines s'
  end.

(** Cut a text after every [\n], keeping the terminators; a last line
    without terminator is kept when it is not empty. *)
Fixpoint splitlines_keepends (s : str) : list str :=
  match s with
  | [] => []
  | c :: s' =>
      if c =? LF then [LF] :: splitlines_keepends s'
      else match splitlines_keepends s' with
           | [] => [[c]]
           | l :: ls => (c :: l) :: ls
           end
  end.

(** [f.readlines()] on a file opened with [open(path, 'r')]. *)
Definition readlines (content : str) : list str :=
  splitlines_keepends (translate_newlines content).

(** [s[:n]] and [l[-n:]] *)
Definition slice_to {A} (n : nat) (l : list A) : list A := take n l.
Definition slice_last {A} (n : nat) (l : list A) : list A :=
  drop (length l - n) l.

(** [str(n)] for a non-negative [int] *)
Definition str_of_int (n : N) : str :=
  lit (NilEmpty.string_of_uint (N.to_uint n)).

(** [len(l)] is an [int]. *)
Definition len {A} (l : list A) : N := N.of_nat (length l).

(** [len(set(xs))] for strings *)
Definition len_set (xs : list str) : N :=
  N.of_nat (size (list_to_set xs : gset (list N))).

(** [sep.join(parts)], used here to lay the literals of the source out
    line by line. *)
Fixpoint join (sep : str) (parts : list str) : str :=
  match parts with
  | [] => []
  | [p] => p
  | p :: ps => p ++ sep ++ join sep ps
  end.

Definition nl_join : list str → str := join [LF].

(** [s.zfill(w)] for a string of digits *)
Definition zfill (w : nat) (s : str) : str := replicate (w - length s) 48 ++ s.

(** ** Python runtime: numbers *)

Local Open Scope Z_scope.

(** The integer nearest to [n / d], ties to the even one
    ([0 <= n], [0 < d]). *)
Definition round_half_even (n d : Z) : Z :=
  let q := n / d in
  let r := n mod d in
  if 2 * r <? d then q
  else if d <? 2 * r then q + 1
  else if Z.even q then q else q + 1.

(** A non-negative [float]: [Finite m e] is the binary64 value
    [m * 2^e]. *)
Inductive float : Type :=
  | Finite (m e : Z)
  | Inf
  | NaN.

(** [floor (log2 (n / d))] for positive [n] and [d]. *)
Definition floor_log2_ratio (n d : Z) : Z :=
  let k := Z.log2 n - Z.log2 d in
  if (if 0 <=? k then n <? d * 2 ^ k else n * 2 ^ (- k) <? d)
  then k - 1 else k.

(** The binary64 value nearest to the rational [n / d] ([0 <= n],
    [0 < d]): 53 significant bits, round to nearest, ties to even,
    gradual underflow below [2^-1022], overflow from [2^1024] on. *)
Definition binary64 (n d : Z) : float :=
  if n =? 0 then Finite 0 0
  else
    let e := Z.max (floor_log2_ratio n d - 52) (-1074) in
    let m := if 0 <=? e then round_half_even n (d * 2 ^ e)
             else round_half_even (n * 2 ^ (- e)) d in
    if 2 ^ 1024 <=? m * 2 ^ e then Inf else Finite m e.

(** [float(n)] for a non-negative [int] *)
Definition float_of_int (n : N) : float := binary64 (Z.of_N n) 1.

(** [x * y] on floats *)
Definition float_mul (x y : float) : float :=
  match x, y with
  | Finite m1 e1, Finite m2 e2 =>
      let e := e1 + e2 in
      binary64 (m1 * m2 * 2 ^ Z.max e 0) (2 ^ Z.max (- e) 0)
  | Inf, Finite m _ | Finite m _, Inf => if m =? 0 then NaN else Inf
  | Inf, Inf => Inf
  | _, _ => NaN
  end.

(** [format(x, '.1f')]: the decimal with one fractional digit nearest
    to the exact value of [x], ties to even. *)
Definition format_1f (x : float) : str :=
  match x with
  | Finite m e =>
      let t := round_half_even (10 * m * 2 ^ Z.max e 0) (2 ^ Z.max (- e) 0) in
      str_of_int (Z.to_N (t / 10)) ++ lit "."
        ++ str_of_int (Z.to_N (t mod 10))
  | Inf => lit "inf"
  | NaN => lit "nan"
  end.

(** [c <= x] for an integer [c] and the exact value of [x] *)
Definition float_ge (x : float) (c : Z) : Prop :=
  match x with
  | Finite m e => c * 2 ^ Z.max (- e) 0 <= m * 2 ^ Z.max e 0
  | Inf => True
  | NaN => False
  end.

(** The largest length of a list ([sys.maxsize]). *)
Definition maxsize : Z := 2 ^ 63 - 1.

Local Close Scope Z_scope.

(** ** Python runtime: exceptions *)

Inductive exc_type : Type :=
  | FileNotFoundError
  | ZeroDivisionError
  | OverflowError
  | OtherException.

(** An instance of a subclass of [Exception]; [exc_str] is [str(e)]. *)
Record exception : Type := Exc { exc_class : exc_type; exc_str : str }.

Inductive result (A : Type) : Type :=
  | Ok (a : A)
  | Raised (e : exception).
Arguments Ok {A} a.
Arguments Raised {A} e.

(** [a / b] on two non-negative [int]s: the correctly rounded quotient. *)
Definition int_true_divide (a b : N) : result float :=
  if b =? 0 then Raised (Exc ZeroDivisionError (lit "division by zero"))
  else match binary64 (Z.of_N a) (Z.of_N b) with
       | Inf => Raised (Exc OverflowError
                  (lit "integer division result too large for a float"))
       | q => Ok q
       end.

(** ** Python runtime: [base64] and [datetime] *)

Definition b64_index (c : char) : option N :=
  if (65 <=? c) && (c <=? 90) then Some (c - 65)
  else if (97 <=? c) && (c <=? 122) then Some (c - 97 + 26)
  else if (48 <=? c) && (c <=? 57) then Some (c - 48 + 52)
  else if c =? 43 then Some 62
  else if c =? 47 then Some 63
  else None.

Fixpoint b64_octets (v : list N) : list N :=
  match v with
  | a :: b :: c :: d :: rest =>
      (a * 4 + b / 16) :: ((b mod 16) * 16 + c / 4) :: ((c mod 4) * 64 + d)
        :: b64_octets rest
  | [a; b; c] => [a * 4 + b / 16; (b mod 16) * 16 + c / 4]
  | [a; b] => [a * 4 + b / 16]
  | _ => []
  end.

Definition to_byte (n : N) : Byte.byte := default Byte.x00 (Byte.of_N n).

(** [base64.b64decode(s)]: characters outside the alphabet are skipped;
    a last group of two or three digits needs its [=] padding. *)
Definition b64decode (s : str) : option (list Byte.byte) :=
  let digits := omap b64_index s in
  let pads := length (filter (λ c, c = 61) s) in
  let left := (length digits mod 4)%nat in
  if ((left =? 0) || ((left =? 2) && (2 <=? pads)) || ((left =? 3) && (1 <=? pads)))%nat
  then Some (to_byte <$> b64_octets digits)
  else None.

(** A naive local time, as [datetime.now()] returns it. *)
Record datetime : Type := {
  year : nat; month : nat; day : nat;
  hour : nat; minute : nat; second : nat; microsecond : nat }.

(** ["%0wd" % n] *)
Definition padded (w n : nat) : str := zfill w (str_of_int (N.of_nat n)).

(** [d.isoformat()]: [YYYY-MM-DDTHH:MM:SS], followed by [.ffffff] when
    the microseconds are not zero. *)
Definition isoformat (d : datetime) : str :=
  padded 4 (year d) ++ lit "-" ++ padded 2 (month d)
    ++ lit "-" ++ padded 2 (day d)
    ++ lit "T" ++ padded 2 (hour d)
    ++ lit ":" ++ padded 2 (minute d)
    ++ lit ":" ++ padded 2 (second d)
    ++ (if (microsecond d =? 0)%nat then []
        else lit "." ++ padded 6 (microsecond d)).

(** [f"{v}"] for a value that is a [str] or [None] *)
Definition format_value (v : option str) : str := default (lit "None") v.

End Py.

Import Py.

(** ** The world of the handlers *)

(** The log file (absent until the first successful append) and the
    lines printed on the diagnostic stream. *)
Record world : Type := World { log_file : option str; stdout : list str }.

(** What the handlers take from outside: the clock, the process
    environment, and the failures of the file system.  [append_fault]
    is the exception raised while [open(LOG_FILE, 'a')] or the write
    runs, with the state the file is left in; [read_fault] is the text of
    the exception raised while an existing file is opened or read
    (permissions, a directory, undecodable bytes). *)
Record env : Type := Env {
  now : datetime;
  environ_LOG_FILE : option str;
  append_fault : option (exception * option str);
  read_fault : option str }.

(** Request metadata used by the pixel handler. *)
Record request : Type := Request {
  x_forwarded_for : option str;
  user_agent_header : option str;
  remote_addr : option str }.

(** What a view function returns to Flask. *)
Inductive view_result : Type :=
  | SendFile (data : list Byte.byte) (mimetype : str)
  | Body (html : str)
  | BodyStatus (html : str) (status : nat)
  | Dict (items : list (str * str)).

Inductive payload : Type :=
  | Bytes (data : list Byte.byte)
  | Text (text : str)
  | Json (items : list (str * str)).

Record response : Type := Response {
  status_code : nat; content_type : str; body : payload }.

(** Flask's conversion of a view's return value: status 200 unless the
    view gives one, [text/html] for a string, JSON for a dict. *)
Definition make_response (r : view_result) : response :=
  match r with
  | SendFile data mimetype => Response 200 mimetype (Bytes data)
  | Body html => Response 200 (lit "text/html; charset=utf-8") (Text html)
  | BodyStatus html status =>
      Response status (lit "text/html; charset=utf-8") (Text html)
  | Dict items => Response 200 (lit "application/json") (Json items)
  end.

(** Computations that read and change the world and may raise. *)
Definition M (A : Type) : Type := world → result A * world.

Definition ret {A} (a : A) : M A := λ w, (Ok a, w).

Definition bind {A B} (c : M A) (k : A → M B) : M B :=
  λ w, match c w with
       | (Ok a, w') => k a w'
       | (Raised e, w') => (Raised e, w')
       end.

(** [try: c  except Exception as e: h e] *)
Definition try_except {A} (c : M A) (h : exception → M A) : M A :=
  λ w, match c w with
       | (Ok a, w') => (Ok a, w')
       | (Raised e, w') => h e w'
       end.

Definition lift {A} (r : result A) : M A := λ w, (r, w).

Declare Scope py_scope.
Delimit Scope py_scope with py.
Notation "x <- c ;; k" := (bind c (λ x, k))
  (at level 100, c at next level, right associativity) : py_scope.

(** A handler runs to a return value: each view catches what it raises. *)
Definition handler : Type := world → view_result * world.

(** [print(s)] *)
Definition print (s : str) : M unit :=
  λ w, (Ok tt, World (log_file w) (stdout w ++ [s])).

(** [os.getenv('LOG_FILE', 'email_opens.log')] *)
Definition LOG_FILE (E : env) : str :=
  default (lit "email_opens.log") (environ_LOG_FILE E).

(** [with open(LOG_FILE, 'a', encoding='utf-8') as f: f.write(data)].
    Append mode creates the file when it is absent and writes at its
    end; on a POSIX host the text is written as it is, its line feeds
    included. *)
Definition append_log (E : env) (data : str) : M unit :=
  λ w, match append_fault E with
       | None => (Ok tt, World (Some (default [] (log_file w) ++ data)) (stdout w))
       | Some (e, left_behind) => (Raised e, World left_behind (stdout w))
       end.

(** [with open(LOG_FILE, 'r', encoding='utf-8') as f: lines = f.readlines()] *)
Definition read_log_lines (E : env) : M (list str) :=
  λ w, match log_file w with
       | None =>
           (Raised (Exc FileNotFoundError
              (lit "[Errno 2] No such file or directory: '" ++ LOG_FILE E ++ lit "'")), w)
       | Some content =>
           match read_fault E with
           | Some text => (Raised (Exc OtherException text), w)
           | None => (Ok (readlines content), w)
           end
       end.

(** ** The pixel handler *)

(** The 1x1 transparent PNG, as base64 in the source. *)
Definition PIXEL_B64 : str :=
  lit "iVBORw0KGgoAAAANSUhEUgAAAAEAAAABCAQAAAC1HAwCAAAAC0lEQVR42mNk+A8AAQUBAScY42YAAAAASUVORK5CYII=".

Definition PIXEL_DATA : list Byte.byte := default [] (b64decode PIXEL_B64).

(** [request.headers.get(name, fallback)] *)
Definition headers_get (header fallback : option str) : option str :=
  match header with
  | Some v => Some v
  | None => fallback
  end.

(** [f"{timestamp}|{tracking_id}|{ip}|{user_agent}\n"] *)
Definition log_entry (timestamp tracking_id : str)
    (ip user_agent : option str) : str :=
  timestamp ++ [PIPE] ++ tracking_id ++ [PIPE] ++ format_value ip ++ [PIPE]
    ++ format_value user_agent ++ [LF].

Definition track_pixel (E : env) (req : request) (tracking_id : str) : handler :=
  λ w,
    let timestamp := isoformat (now E) in
    let ip := headers_get (x_forwarded_for req) (remote_addr req) in
    let user_agent :=
      headers_get (user_agent_header req) (Some (lit "Unknown")) in
    let entry := log_entry timestamp tracking_id ip user_agent in
    let '(_, w') :=
      try_except (append_log E entry)
        (λ e, print (lit "Error logging: " ++ exc_str e)) w in
    (SendFile PIXEL_DATA (lit "image/png"), w').

(** ** The stats handler *)

Record open_event : Type := OpenEvent {
  timestamp : str; tracking_id : str; ip : str; user_agent : str }.

(** The body of the parsing loop: one line, appended to [opens] when it
    has at least four parts. *)
Definition parse_line (opens : list open_event) (line : str) : list open_event :=
  let parts := split PIPE (strip line) in
  if (4 <=? length parts)%nat then
    opens ++ [OpenEvent (nth 0 parts []) (nth 1 parts []) (nth 2 parts [])
                (nth 3 parts [])]
  else opens.

Definition parse_log (lines : list str) : list open_event :=
  foldl parse_line [] lines.

Definition total_opens (opens : list open_event) : N := len opens.

Definition unique_emails (opens : list open_event) : N :=
  len_set (tracking_id <$> opens).

(** [total_opens / unique_emails * 100] *)
Definition open_rate (opens : list open_event) : result float :=
  match int_true_divide (total_opens opens) (unique_emails opens) with
  | Ok q => Ok (float_mul q (float_of_int 100))
  | Raised e => Raised e
  end.

(** The page template, up to [{total_opens}]. *)
Definition html_head : str :=
  nl_join
    [[];
     lit "        <html>";
     lit "        <head><title>Email Tracking Stats</title>";
     lit "        <style>";
     lit "            body {font-family: Arial; padding: 20px; background: #f5f5f5;}";
     lit "            .stat {background: white; padding: 20px; margin: 10px 0; border-radius: 8px;}";
     lit "            table {width: 100%; border-collapse: collapse; margin-top: 20px;}";
     lit "            th, td {padding: 10px; text-align: left; border-bottom: 1px solid #ddd;}";
     lit "            th {background: #646db1; color: white;}";
     lit "            tr:hover {background: #f5f5f5;}";
     lit "        </style>";
     lit "        </head>";
     lit "        <body>";
     lit "        <h1>" ++ [128202] ++ lit " Email Tracking Stats</h1>";
     lit "        ";
     lit "        <div class=" ++ [QUOTE] ++ lit "stat" ++ [QUOTE] ++ lit ">";
     lit "            <h2>Summary</h2>";
     lit "            <p><strong>Total Opens:</strong> "].

(** The page template, between [{total_opens}] and [{unique_emails}]. *)
Definition html_after_total : str :=
  nl_join
    [lit "</p>";
     lit "            <p><strong>Unique Emails:</strong> "].

(** The page template, between [{unique_emails}] and the open rate. *)
Definition html_after_unique : str :=
  nl_join
    [lit "</p>";
     lit "            <p><strong>Open Rate:</strong> "].

(** The page template, after the open rate: the table header. *)
Definition html_after_rate : str :=
  nl_join
    [lit "% (avg opens per email)</p>";
     lit "        </div>";
     lit "        ";
     lit "        <div class=" ++ [QUOTE] ++ lit "stat" ++ [QUOTE] ++ lit ">";
     lit "            <h2>Recent Opens</h2>";
     lit "            <table>";
     lit "                <tr>";
     lit "                    <th>Timestamp</th>";
     lit "                    <th>Tracking ID</th>";
     lit "                    <th>IP</th>";
     lit "                    <th>User Agent</th>";
     lit "                </tr>";
     lit "        "].

(** The row template, up to the timestamp cell. *)
Definition row_open : str :=
  nl_join
    [[];
     lit "                <tr>";
     lit "                    <td>"].

(** The row template, between two cells. *)
Definition row_next_cell : str :=
  nl_join
    [lit "</td>";
     lit "                    <td>"].

(** The row template, after the last cell. *)
Definition row_close : str :=
  nl_join
    [lit "</td>";
     lit "                </tr>";
     lit "            "].

(** The text added after the rows. *)
Definition html_tail : str :=
  nl_join
    [[];
     lit "            </table>";
     lit "        </div>";
     lit "        </body>";
     lit "        </html>";
     lit "        "].

(** The first f-string of the page. *)
Definition html_summary (opens : list open_event) : result str :=
  match open_rate opens with
  | Ok rate =>
      Ok (html_head ++ str_of_int (total_opens opens)
          ++ html_after_total ++ str_of_int (unique_emails opens)
          ++ html_after_unique ++ format_1f rate
          ++ html_after_rate)
  | Raised e => Raised e
  end.

(** The f-string of one table row. *)
Definition html_row (event : open_event) : str :=
  row_open ++ slice_to 19 (timestamp event)
    ++ row_next_cell ++ tracking_id event
    ++ row_next_cell ++ ip event
    ++ row_next_cell ++ slice_to 80 (user_agent event)
    ++ row_close.

(** [reversed(opens[-50:])] *)
Definition recent_opens (opens : list open_event) : list open_event :=
  reverse (slice_last 50 opens).

(** The body of the [try] block. *)
Definition stats_page (E : env) : M str :=
  (lines <- read_log_lines E ;;
   let opens := parse_log lines in
   html <- lift (html_summary opens) ;;
   let html := foldl (λ html event, html ++ html_row event)
                 html (recent_opens opens) in
   ret (html ++ html_tail))%py.

Definition view_stats (E : env) : handler :=
  λ w,
    match stats_page E w with
    | (Ok html, w') => (Body html, w')
    | (Raised e, w') =>
        match exc_class e with
        | FileNotFoundError => (BodyStatus (lit "<h1>No tracking data yet</h1>") 404, w')
        | _ => (BodyStatus (lit "<h1>Error: " ++ exc_str e ++ lit "</h1>") 500, w')
        end
    end.

(** ** The health handler *)

Definition home : handler :=
  λ w,
    (Dict [(lit "status", lit "running");
           (lit "service", lit "Ocrevus Email Tracker");
           (lit "version", lit "1.0")], w).

(** ** Routing *)

Inductive endpoint : Type :=
  | TrackPixel (tracking_id : str)
  | ViewStats
  | Home.

(** The router drops the leading slashes of the request path before it
    matches: [path.lstrip('/')]. *)
Fixpoint path_info (path : str) : str :=
  match path with
  | c :: path' => if c =? 47 then path_info path' else path
  | [] => []
  end.

(** The three rules of the application.  [<tracking_id>] is a string
    converter: the non-empty text, without [/], between [/pixel/] and
    the final [.png]. *)
Definition url_rules (path_part : str) : option endpoint :=
  if decide (path_part = lit "/stats") then Some ViewStats
  else if decide (path_part = lit "/") then Some Home
  else
    match strip_prefix (lit "/pixel/") path_part with
    | Some rest =>
        match strip_suffix (lit ".png") rest with
        | Some tracking_id =>
            if decide (tracking_id ≠ [] ∧ 47 ∉ tracking_id)
            then Some (TrackPixel tracking_id) else None
        | None => None
        end
    | None => None
    end.

(** The handler a request path is dispatched to.  An empty path is
    matched as it is and selects no rule; any other path is matched as one
    slash followed by [path_info].  For [None] the router answers itself,
    with not found or with a redirect (to [/] for the empty path, to the
    path with its repeated slashes merged otherwise).  Only the path
    takes part: the rules are those of [GET] requests. *)
Definition url_map (path : str) : option endpoint :=
  match path with
  | [] => None
  | _ :: _ => url_rules (47 :: path_info path)
  end.

Definition dispatch (E : env) (req : request) (e : endpoint) : handler :=
  match e with
  | TrackPixel tracking_id => track_pixel E req tracking_id
  | ViewStats => view_stats E
  | Home => home
  end.

(** ** Vocabulary of the statements *)

(** The page of the stats handler, by its parts. *)
Definition stats_html (total unique : N) (rate : str) (rows : list open_event) : str :=
  html_head ++ str_of_int total ++ html_after_total ++ str_of_int unique
    ++ html_after_unique ++ rate ++ html_after_rate
    ++ concat (html_row <$> rows) ++ html_tail.

(** The records the stats handler parses from a log. *)
Definition opens_of (content : str) : list open_event :=
  parse_log (readlines content).

(** One pixel request: its clock and faults, its metadata, its id. *)
Record call : Type := Call {
  call_env : env; call_request : request; call_id : str }.

Definition call_ip (c : call) : option str :=
  headers_get (x_forwarded_for (call_request c)) (remote_addr (call_request c)).

Definition call_user_agent (c : call) : option str :=
  headers_get (user_agent_header (call_request c)) (Some (lit "Unknown")).

(** The line the request writes. *)
Definition call_entry (c : call) : str :=
  log_entry (isoformat (now (call_env c))) (call_id c) (call_ip c)
    (call_user_agent c).

Definition serve_pixel (w : world) (c : call) : world :=
  snd (track_pixel (call_env c) (call_request c) (call_id c) w).

(** A sequence of pixel requests, served one after the other. *)
Definition serve_pixels (calls : list call) (w : world) : world :=
  foldl serve_pixel w calls.

(** No line break in a text: it stays on one line of the file. *)
Definition one_line (s : str) : Prop := (LF ∉ s) ∧ (CR ∉ s).

(** No delimiter and no line break. *)
Definition plain (s : str) : Prop := (PIPE ∉ s) ∧ one_line s.

(** The request writes successfully, its id is plain and its metadata
    stay on one line. *)
Definition call_ok (c : call) : Prop :=
  append_fault (call_env c) = None ∧ plain (call_id c)
  ∧ one_line (format_value (call_ip c))
  ∧ one_line (format_value (call_user_agent c)).

(** The characters of an ISO timestamp: digits, [-], [T], [:], [.]. *)
Definition iso_char (c : N) : Prop :=
  (48 ≤ c ≤ 57) ∨ c = 45 ∨ c = 84 ∨ c = 58 ∨ c = 46.

(** What the [try] block computes from the parsed records. *)
Definition rendered (opens : list open_event) : result str :=
  match open_rate opens with
  | Ok rate =>
      Ok (stats_html (total_opens opens) (unique_emails opens) (format_1f rate)
            (recent_opens opens))
  | Raised e => Raised e
  end.

(** A line ends at its first line feed. *)
Definition line_shape (line : str) : Prop :=
  ∃ body, (line = body ++ [LF] ∨ line = body) ∧ (LF ∉ body).

(** A record whose four fields are plain. *)
Definition plain_event (r : open_event) : Prop :=
  plain (timestamp r) ∧ plain (tracking_id r) ∧ plain (ip r) ∧ plain (user_agent r).


(** The text of [a / b * 100] with one decimal, or of the exception. *)
Definition rate_text (a b : N) : str :=
  match int_true_divide a b with
  | Ok q => format_1f (float_mul q (float_of_int 100))
  | Raised e => exc_str e
  end.

(** ** Sample inputs *)

Definition sample_clock : datetime :=
  {| year := 2025; month := 12; day := 15;
     hour := 9; minute := 3; second := 7; microsecond := 4321 |}.

Definition sample_env : env := Env sample_clock None None None.

Definition failing_env : env :=
  Env sample_clock None
    (Some (Exc OtherException (lit "[Errno 28] No space left on device"), None))
    None.

Definition sample_request : request :=
  Request None (Some (lit "Mozilla/5.0")) (Some (lit "10.0.0.1")).

Definition sample_id : str := lit "ocrevus_20251215_TERR013_thomas.gambade".

Definition empty_world : world := World None [].


(** Two requests with distinct plain ids. *)
Definition distinct_calls : list call :=
  [Call sample_env sample_request sample_id;
   Call sample_env (Request (Some (lit "192.0.2.7")) None None) (lit "ocrevus_20251215_TERR014_x")].

(** Three requests with one id. *)
Definition repeated_calls : list call :=
  [Call sample_env sample_request sample_id;
   Call sample_env (Request (Some (lit "192.0.2.7")) None None) sample_id;
   Call sample_env sample_request sample_id].

(** The log the three requests write. *)
Definition three_opens_one_id : str :=
  concat (call_entry <$> repeated_calls).

(** A log of sixty well-formed lines. *)
Definition sixty_lines : str :=
  concat (replicate 60 (lit "2025-12-15T09:03:07|id|10.0.0.1|Mozilla/5.0" ++ [LF])).

(** The log is empty or its last character is a line feed. *)
Definition well_terminated (content : str) : Prop :=
  content = [] ∨ ∃ c, content = c ++ [LF].

(** The same instant with the microseconds set to zero. *)
Definition without_microseconds (d : datetime) : datetime :=
  {| year := year d; month := month d; day := day d;
     hour := hour d; minute := minute d; second := second d; microsecond := 0 |}.

(** The fields of a [datetime] fill at most their columns. *)
Definition clock_in_range (d : datetime) : Prop :=
  (year d < 10000 ∧ month d < 100 ∧ day d < 100
   ∧ hour d < 100 ∧ minute d < 100 ∧ second d < 100)%nat.

(** A log holding one earlier open. *)
Definition earlier_line : str := lit "2025-12-14T08:00:00|seen_before|10.0.0.9|curl/8.0".

Definition logged_world : world := World (Some (earlier_line ++ [LF])) [].

Definition sample_call : call := Call sample_env sample_request sample_id.

(** The next text written starts a line of its own: the content is
    empty or ends with a line break. *)
Definition at_line_start (content : str) : Prop :=
  last content = None ∨ last content = Some LF ∨ last content = Some CR.

#[global] Instance at_line_start_dec content : Decision (at_line_start content).
Proof. unfold at_line_start. apply _. Defined.

(** Sixty lines with one id, then two requests with ids of their own. *)
Definition sixty_two_lines : str :=
  sixty_lines ++ concat (call_entry <$> distinct_calls).

(** * Properties *)

(** ** Facts about the runtime model *)

(** *** split *)

Section Split.

Implicit Types (sep c : N) (s a b : list N).

Lemma is_whitespace_PIPE : is_whitespace PIPE = false.
Proof. reflexivity. Qed.

Lemma split_cons_sep sep s : split sep (sep :: s) = [] :: split sep s.
Proof. simpl. by rewrite N.eqb_refl. Qed.

Lemma split_nonempty sep s : split sep s ≠ [].
Proof.
  induction s as [|c s IH]; simpl; [done|].
  destruct (c =? sep); [done|]. by destruct (split sep s).
Qed.

Lemma split_cons_other sep c s :
  c ≠ sep → ∃ p ps, split sep s = p :: ps ∧ split sep (c :: s) = (c :: p) :: ps.
Proof.
  intros Hc. simpl. destruct (N.eqb_spec c sep) as [->|_]; [done|].
  destruct (split sep s) as [|p ps] eqn:Hs; [by apply split_nonempty in Hs|].
  by exists p, ps.
Qed.

(** Splitting a text in which the separator does not occur. *)
Lemma split_no_sep sep s : sep ∉ s → split sep s = [s].
Proof.
  induction s as [|c s IH]; intros Hs; [done|].
  apply not_elem_of_cons in Hs as [Hc Hs]. simpl.
  destruct (N.eqb_spec c sep) as [->|_]; [done|]. by rewrite IH.
Qed.

Lemma split_app sep a b :
  sep ∉ a → split sep (a ++ sep :: b) = a :: split sep b.
Proof.
  induction a as [|c a IH]; intros Ha.
  - apply split_cons_sep.
  - apply not_elem_of_cons in Ha as [Hc Ha].
    change ((c :: a) ++ sep :: b) with (c :: (a ++ sep :: b)). simpl.
    destruct (N.eqb_spec c sep) as [->|_]; [done|]. by rewrite IH.
Qed.


Lemma split_length sep s : length (split sep s) = S (count_char sep s).
Proof.
  unfold count_char. induction s as [|c s IH]; [done|].
  rewrite filter_cons. cbn [split]. destruct (N.eqb_spec c sep) as [->|Hne].
  - rewrite decide_True by done. cbn [length]. by rewrite IH.
  - rewrite decide_False by done.
    destruct (split sep s) as [|p ps] eqn:Hs; [by apply split_nonempty in Hs|].
    done.
Qed.

Lemma split_parts_no_sep sep s : Forall (λ p, sep ∉ p) (split sep s).
Proof.
  induction s as [|c s IH]; simpl.
  - constructor; [|constructor]. apply not_elem_of_nil.
  - destruct (N.eqb_spec c sep) as [->|Hne].
    + constructor; [apply not_elem_of_nil|done].
    + destruct (split sep s) as [|p ps]; [repeat constructor; set_solver|].
      inversion IH; subst. constructor; [|done]. set_solver.
Qed.

End Split.

(** *** strip *)

Section Strip.

Implicit Types (s ws : list N).

Lemma lstrip_app_stop a x r :
  is_whitespace x = false → lstrip (a ++ x :: r) = lstrip a ++ x :: r.
Proof.
  intros Hx. induction a as [|c a IH]; simpl.
  - by rewrite Hx.
  - by destruct (is_whitespace c).
Qed.

Lemma rstrip_app_stop l x c :
  is_whitespace x = false → rstrip (l ++ x :: c) = l ++ x :: rstrip c.
Proof.
  intros Hx. unfold rstrip.
  rewrite reverse_app, reverse_cons, <- app_assoc. simpl.
  rewrite lstrip_app_stop by done.
  rewrite reverse_app, reverse_cons, reverse_involutive, <- app_assoc. done.
Qed.

Lemma rstrip_snoc_ws s c : is_whitespace c = true → rstrip (s ++ [c]) = rstrip s.
Proof.
  intros Hc. unfold rstrip. rewrite reverse_app. simpl. by rewrite Hc.
Qed.

Lemma lstrip_suffix s : ∃ ws, s = ws ++ lstrip s ∧ Forall (λ c, is_whitespace c = true) ws.
Proof.
  induction s as [|c s (ws & Hs & Hws)]; simpl.
  - by exists [].
  - destruct (is_whitespace c) eqn:Hc.
    + exists (c :: ws). split; [by rewrite <- app_comm_cons, <- Hs|by constructor].
    + by exists [].
Qed.

Lemma rstrip_prefix s : ∃ ws, s = rstrip s ++ ws ∧ Forall (λ c, is_whitespace c = true) ws.
Proof.
  destruct (lstrip_suffix (reverse s)) as (ws & Hs & Hws).
  exists (reverse ws). split.
  - unfold rstrip. rewrite <- reverse_app, <- Hs. by rewrite reverse_involutive.
  - by apply Forall_reverse.
Qed.

(** Stripping removes white space only, at the two ends. *)
Lemma strip_decompose s :
  ∃ l r, s = l ++ strip s ++ r
    ∧ Forall (λ c, is_whitespace c = true) l ∧ Forall (λ c, is_whitespace c = true) r.
Proof.
  destruct (lstrip_suffix s) as (l & Hl & Hwl).
  destruct (rstrip_prefix (lstrip s)) as (r & Hr & Hwr).
  exists l, r. unfold strip. by rewrite <- Hr, <- Hl.
Qed.

Lemma lstrip_id s : Forall (λ c, is_whitespace c = false) s → lstrip s = s.
Proof. intros Hs. destruct Hs as [|c s Hc _]; simpl; [done|by rewrite Hc]. Qed.

Lemma count_char_app c a b : count_char c (a ++ b) = (count_char c a + count_char c b)%nat.
Proof. unfold count_char. by rewrite filter_app, length_app. Qed.

Lemma count_char_ws c ws :
  is_whitespace c = false → Forall (λ d, is_whitespace d = true) ws → count_char c ws = 0%nat.
Proof.
  intros Hc. unfold count_char. induction 1 as [|d ws Hd _ IH]; [done|].
  rewrite filter_cons, decide_False; [done|]. intros ->. congruence.
Qed.

Lemma count_char_strip c s : is_whitespace c = false → count_char c (strip s) = count_char c s.
Proof.
  intros Hc. destruct (strip_decompose s) as (l & r & Hs & Hl & Hr).
  rewrite Hs at 2. rewrite !count_char_app, (count_char_ws c l), (count_char_ws c r) by done. lia.
Qed.

Lemma split_strip_length s : length (split PIPE (strip s)) = length (split PIPE s).
Proof. by rewrite !split_length, count_char_strip. Qed.

End Strip.

(** *** readlines *)

Section Readlines.

Lemma translate_newlines_id s : CR ∉ s → translate_newlines s = s.
Proof.
  induction s as [|c s IH]; intros Hs; [done|].
  apply not_elem_of_cons in Hs as [Hc Hs]. simpl.
  destruct (N.eqb_spec c CR) as [->|_]; [done|]. by rewrite IH.
Qed.

Lemma splitlines_keepends_line body rest :
  LF ∉ body →
  splitlines_keepends (body ++ LF :: rest) = (body ++ [LF]) :: splitlines_keepends rest.
Proof.
  induction body as [|c body IH]; intros Hb; [done|].
  apply not_elem_of_cons in Hb as [Hc Hb].
  change ((c :: body) ++ LF :: rest) with (c :: (body ++ LF :: rest)).
  cbn [splitlines_keepends].
  destruct (N.eqb_spec c LF) as [->|_]; [done|]. by rewrite IH.
Qed.

Lemma splitlines_keepends_concat (bodies : list str) :
  Forall (λ b, LF ∉ b) bodies →
  splitlines_keepends (concat ((λ b, b ++ [LF]) <$> bodies)) = (λ b, b ++ [LF]) <$> bodies.
Proof.
  induction 1 as [|b bodies Hb _ IH]; [done|].
  cbn [fmap list_fmap concat]. rewrite <- app_assoc. simpl.
  by rewrite splitlines_keepends_line, IH.
Qed.

End Readlines.

(** *** The parsing loop *)

Section ParsingLoop.

Implicit Types (line : list N) (lines : list (list N)).

Lemma foldl_parse_line acc lines :
  foldl parse_line acc lines = acc ++ parse_log lines.
Proof.
  unfold parse_log. revert acc.
  induction lines as [|line lines IH]; intros acc; simpl.
  - by rewrite app_nil_r.
  - rewrite IH, (IH (parse_line [] line)), app_assoc. f_equal.
    unfold parse_line. destruct (4 <=? _)%nat; [done|by rewrite app_nil_r].
Qed.

Lemma parse_log_app l1 l2 : parse_log (l1 ++ l2) = parse_log l1 ++ parse_log l2.
Proof. unfold parse_log at 1. by rewrite foldl_app, foldl_parse_line. Qed.

Lemma parse_log_cons line lines :
  parse_log (line :: lines) = parse_log [line] ++ parse_log lines.
Proof. apply (parse_log_app [line]). Qed.

Lemma parse_log_one line :
  parse_log [line] =
    match split PIPE (strip line) with
    | p0 :: p1 :: p2 :: p3 :: _ => [OpenEvent p0 p1 p2 p3]
    | _ => []
    end.
Proof.
  unfold parse_log, parse_line. simpl.
  destruct (split PIPE (strip line)) as [|p0 [|p1 [|p2 [|p3 rest]]]]; done.
Qed.

Lemma parse_log_short line :
  (length (split PIPE (strip line)) < 4)%nat → parse_log [line] = [].
Proof.
  rewrite parse_log_one.
  destruct (split PIPE (strip line)) as [|p0 [|p1 [|p2 [|p3 rest]]]]; simpl; [done..|lia].
Qed.

End ParsingLoop.

(** *** Counting distinct strings *)

Section DistinctCount.

Lemma len_set_nil : len_set [] = 0.
Proof. reflexivity. Qed.

Lemma len_set_le (xs : list str) : len_set xs <= len xs.
Proof.
  unfold len_set, len.
  enough (size (list_to_set xs : gset (list N)) ≤ length xs)%nat by lia.
  induction xs as [|x xs IH]; [done|].
  rewrite list_to_set_cons. simpl.
  rewrite size_union_alt, size_singleton.
  assert (size (list_to_set xs ∖ {[x]} : gset (list N)) ≤ size (list_to_set xs : gset (list N)))%nat
    by (apply subseteq_size; set_solver).
  lia.
Qed.



Lemma len_set_zero (xs : list str) : len_set xs = 0 ↔ xs = [].
Proof.
  split; [|by intros ->].
  unfold len_set. intros H. destruct xs as [|x xs]; [done|].
  assert (size (list_to_set (x :: xs) : gset (list N)) = 0%nat) as H0 by lia.
  apply size_empty_inv in H0. set_solver.
Qed.

Lemma len_set_constant (x : list N) (xs : list str) :
  xs ≠ [] → Forall (λ y, y = x) xs → len_set xs = 1.
Proof.
  intros Hne Hall. unfold len_set.
  assert ((list_to_set xs : gset (list N)) = {[x]}) as ->.
  { apply leibniz_equiv. apply set_equiv. intros y.
    rewrite elem_of_list_to_set, elem_of_singleton. split.
    - intros Hy. by apply (proj1 (Forall_forall _ _) Hall).
    - intros ->. destruct xs as [|z xs]; [done|].
      inversion Hall; subst. by left. }
  by rewrite size_singleton.
Qed.

End DistinctCount.

(** *** Correct rounding *)

Section Rounding.

Local Open Scope Z_scope.

Lemma round_half_even_bounds n d :
  0 < d → n / d <= round_half_even n d <= n / d + 1.
Proof.
  intros Hd. unfold round_half_even.
  destruct (2 * (n mod d) <? d); [lia|].
  destruct (d <? 2 * (n mod d)); [lia|].
  destruct (Z.even (n / d)); lia.
Qed.

(** The exponent of a quotient that is at least one. *)
Lemma floor_log2_ratio_spec n d :
  0 < d → d <= n →
  let k := floor_log2_ratio n d in
  0 <= k ∧ d * 2 ^ k <= n < d * 2 ^ (k + 1).
Proof.
  intros Hd Hn. unfold floor_log2_ratio.
  assert (0 < n) as Hn0 by lia.
  pose proof (Z.log2_spec n Hn0) as [Ha1 Ha2].
  pose proof (Z.log2_spec d Hd) as [Hb1 Hb2].
  pose proof (Z.log2_le_mono d n Hn) as Hab.
  pose proof (Z.log2_nonneg d) as Hb0.
  set (a := Z.log2 n) in *. set (b := Z.log2 d) in *.
  assert (0 <= a - b) as Hk by lia.
  destruct (0 <=? a - b) eqn:Hk'; [|lia].
  assert (2 ^ a = 2 ^ b * 2 ^ (a - b)) as Hpow.
  { rewrite <- Z.pow_add_r by lia. f_equal. lia. }
  assert (0 < 2 ^ (a - b)) as Hp by (apply Z.pow_pos_nonneg; lia).
  destruct (Z.ltb_spec n (d * 2 ^ (a - b))) as [Hlt|Hge]; simpl.
  - assert (a - b ≠ 0) as Hne.
    { intros Heq. rewrite Heq in Hlt. simpl in Hlt. lia. }
    replace (a - b - 1 + 1) with (a - b) by lia.
    split; [lia|]. split; [|done].
    assert (2 ^ (a - b) = 2 * 2 ^ (a - b - 1)) as Hs.
    { rewrite <- Z.pow_succ_r by lia. f_equal. lia. }
    assert (0 < 2 ^ (a - b - 1)) by (apply Z.pow_pos_nonneg; lia).
    replace (Z.succ b) with (b + 1) in Hb2 by lia.
    rewrite Z.pow_add_r in Hb2 by lia. change (2 ^ 1) with 2 in Hb2.
    nia.
  - split; [lia|]. split; [done|].
    replace (Z.succ a) with (a + 1) in Ha2 by lia.
    rewrite Z.pow_add_r in Ha2 |- * by lia. change (2 ^ 1) with 2 in *.
    nia.
Qed.

(** A quotient that is at least one and below [2^1023] rounds to a
    normal number [m * 2^(k - 52)] with [2^52 <= m <= 2^53]; an integer
    bound of at most 53 bits under the quotient stays under the result. *)
Lemma binary64_normal n d :
  0 < d → d <= n → n < d * 2 ^ 1023 →
  ∃ m k, binary64 n d = Finite m (k - 52)
    ∧ 0 <= k < 1023 ∧ d * 2 ^ k <= n < d * 2 ^ (k + 1)
    ∧ 2 ^ 52 <= m <= 2 ^ 53
    ∧ ∀ c, 0 < c <= 2 ^ 53 → c * d <= n → float_ge (Finite m (k - 52)) c.
Proof.
  intros Hd Hn Hbig.
  destruct (floor_log2_ratio_spec n d Hd Hn) as (Hk0 & Hlo & Hhi).
  unfold binary64. destruct (Z.eqb_spec n 0) as [|_]; [lia|].
  set (k := floor_log2_ratio n d) in *.
  assert (k < 1023) as Hk1.
  { destruct (Z.lt_ge_cases k 1023) as [|Hge]; [done|].
    assert (2 ^ 1023 <= 2 ^ k) by (apply Z.pow_le_mono_r; lia). nia. }
  rewrite Z.max_l by lia.
  set (m := if 0 <=? k - 52 then round_half_even n (d * 2 ^ (k - 52))
            else round_half_even (n * 2 ^ (- (k - 52))) d).
  assert (0 < 2 ^ k) as Hpk by (apply Z.pow_pos_nonneg; lia).
  assert (2 ^ (k + 1) = 2 * 2 ^ k) as Hk2.
  { rewrite Z.pow_add_r by lia. change (2 ^ 1) with 2. lia. }
  assert (2 ^ 53 = 2 * 2 ^ 52) as H53 by reflexivity.
  assert (2 ^ 52 <= m <= 2 ^ 53
          ∧ ∀ c, 0 < c <= 2 ^ 53 → c * d <= n → float_ge (Finite m (k - 52)) c)
    as [Hm Hc].
  { subst m. destruct (Z.leb_spec 0 (k - 52)) as [He|He].
    - set (e := k - 52) in *.
      assert (0 < 2 ^ e) as Hpe by (apply Z.pow_pos_nonneg; lia).
      assert (2 ^ k = 2 ^ 52 * 2 ^ e) as Hke.
      { rewrite <- Z.pow_add_r by lia. f_equal. lia. }
      pose proof (round_half_even_bounds n (d * 2 ^ e) ltac:(nia)) as [Hr1 Hr2].
      assert (2 ^ 52 <= n / (d * 2 ^ e)) as Hq1.
      { apply Z.div_le_lower_bound; nia. }
      assert (n / (d * 2 ^ e) < 2 ^ 53) as Hq2.
      { apply Z.div_lt_upper_bound; nia. }
      split; [lia|]. intros c Hc Hcd. unfold float_ge.
      rewrite (Z.max_r (- e)), (Z.max_l e) by lia. rewrite Z.mul_1_r.
      destruct (Z.eq_dec e 0) as [He0|He0].
      + rewrite He0 in *. change (2 ^ 0) with 1 in *.
        rewrite ?Z.mul_1_r in *.
        assert (c <= n / d) by (apply Z.div_le_lower_bound; lia). lia.
      + assert (2 <= 2 ^ e).
        { change 2 with (2 ^ 1) at 1. apply Z.pow_le_mono_r; lia. }
        assert (2 ^ 52 * 2 <= round_half_even n (d * 2 ^ e) * 2 ^ e)
          by (apply Z.mul_le_mono_nonneg; lia).
        lia.
    - set (e := k - 52) in *.
      assert (0 < 2 ^ (- e)) as Hpe by (apply Z.pow_pos_nonneg; lia).
      assert (2 ^ 52 = 2 ^ k * 2 ^ (- e)) as Hke.
      { rewrite <- Z.pow_add_r by lia. f_equal. lia. }
      pose proof (round_half_even_bounds (n * 2 ^ (- e)) d Hd) as [Hr1 Hr2].
      assert (2 ^ 52 <= n * 2 ^ (- e) / d) as Hq1.
      { apply Z.div_le_lower_bound; nia. }
      assert (n * 2 ^ (- e) / d < 2 ^ 53) as Hq2.
      { apply Z.div_lt_upper_bound; nia. }
      split; [lia|]. intros c Hc Hcd. unfold float_ge.
      rewrite (Z.max_l (- e)), (Z.max_r e) by lia. rewrite Z.mul_1_r.
      assert (c * 2 ^ (- e) <= n * 2 ^ (- e) / d).
      { apply Z.div_le_lower_bound; nia. }
      lia. }
  assert (m * 2 ^ (k - 52) < 2 ^ 1024) as Hfin.
  { destruct (Z.lt_ge_cases (k - 52) 0) as [He|He].
    - rewrite Z.pow_neg_r by lia. rewrite Z.mul_0_r. by apply Z.pow_pos_nonneg.
    - assert (2 ^ (k - 52) <= 2 ^ 970) by (apply Z.pow_le_mono_r; lia).
      assert (0 < 2 ^ (k - 52)) by (apply Z.pow_pos_nonneg; lia).
      assert (2 ^ 1024 = 2 * 2 ^ 53 * 2 ^ 970) as -> by reflexivity.
      nia. }
  destruct (Z.leb_spec (2 ^ 1024) (m * 2 ^ (k - 52))); [lia|].
  exists m, k. repeat split; try done; lia.
Qed.

Lemma float_of_int_100 : float_of_int 100 = Finite 7036874417766400 (-46).
Proof. vm_compute. reflexivity. Qed.

(** The rate of a quotient that is at least one, for numbers a list
    length can take: both roundings are finite and the result is at
    least 100. *)
Lemma rate_normal n d :
  0 < d → d <= n → n <= maxsize →
  ∃ q rate, binary64 n d = q ∧ q ≠ Inf ∧ q ≠ NaN
    ∧ float_mul q (float_of_int 100) = rate ∧ rate ≠ Inf ∧ rate ≠ NaN
    ∧ float_ge q 1 ∧ float_ge rate 100.
Proof.
  intros Hd Hn Hmax. unfold maxsize in Hmax.
  assert (n < 2 ^ 63) as Hn63 by lia.
  assert (2 ^ 63 <= 2 ^ 1023) as Hp by (apply Z.pow_le_mono_r; lia).
  destruct (binary64_normal n d Hd Hn ltac:(nia)) as (m & k & Hq & Hk & Hnk & Hm & Hge).
  assert (k < 63) as Hk63.
  { destruct (Z.lt_ge_cases k 63) as [|Hge63]; [done|].
    assert (2 ^ 63 <= 2 ^ k) by (apply Z.pow_le_mono_r; lia). nia. }
  exists (binary64 n d), (float_mul (binary64 n d) (float_of_int 100)).
  rewrite Hq, float_of_int_100. unfold float_mul. cbv zeta.
  set (e := k - 52 + -46).
  rewrite (Z.max_r e 0), (Z.max_l (- e) 0) by lia.
  change (2 ^ 0) with 1. rewrite Z.mul_1_r.
  assert (2 ^ (- e) <= 2 ^ 98) as He98 by (apply Z.pow_le_mono_r; lia).
  assert (0 < 2 ^ (- e)) as He0 by (apply Z.pow_pos_nonneg; lia).
  assert (2 ^ 98 = 2 ^ 52 * 2 ^ 46) as H98 by reflexivity.
  assert (7036874417766400 = 100 * 2 ^ 46) as H100 by reflexivity.
  assert (0 < 2 ^ 46) as H46 by reflexivity.
  assert (2 ^ 1023 = 2 ^ 53 * 2 ^ 53 * 2 ^ 917) as H1023 by reflexivity.
  assert (1 < 2 ^ 917) as H917 by reflexivity.
  assert (2 ^ 53 = 2 * 2 ^ 52) as H53 by reflexivity.
  assert (0 < 2 ^ 52) as H52 by reflexivity.
  assert (100 * 2 ^ 46 < 2 ^ 53) as H100' by reflexivity.
  set (m100 := 7036874417766400) in *.
  assert (100 * 2 ^ (- e) <= m * m100) as Hlow.
  { rewrite H100. transitivity (100 * 2 ^ 98); [lia|]. rewrite H98.
    assert (2 ^ 52 * (100 * 2 ^ 46) <= m * (100 * 2 ^ 46))
      by (apply Z.mul_le_mono_nonneg_r; lia).
    lia. }
  assert (m * m100 < 2 ^ (- e) * 2 ^ 1023) as Hhigh.
  { assert (m * m100 <= 2 ^ 53 * 2 ^ 53)
      by (apply Z.mul_le_mono_nonneg; lia).
    rewrite H1023.
    assert (2 ^ 53 * 2 ^ 53 * 1 < 2 ^ 53 * 2 ^ 53 * 2 ^ 917)
      by (apply Z.mul_lt_mono_pos_l; lia).
    assert (1 * (2 ^ 53 * 2 ^ 53 * 2 ^ 917) <= 2 ^ (- e) * (2 ^ 53 * 2 ^ 53 * 2 ^ 917))
      by (apply Z.mul_le_mono_nonneg_r; lia).
    lia. }
  destruct (binary64_normal (m * m100) (2 ^ (- e)) He0 ltac:(lia) Hhigh)
    as (m' & k' & Hq' & _ & _ & _ & Hge').
  rewrite Hq'. repeat split; try done.
  - apply Hge; lia.
  - apply Hge'; lia.
Qed.



End Rounding.

(** *** Characters of a timestamp *)

Section Timestamp.

Lemma str_of_int_digits n : Forall iso_char (str_of_int n).
Proof.
  unfold str_of_int. generalize (N.to_uint n). intros u.
  induction u; simpl; repeat constructor; try done; unfold iso_char; simpl; lia.
Qed.

Lemma zfill_digits w s : Forall iso_char s → Forall iso_char (zfill w s).
Proof.
  intros Hs. unfold zfill. apply Forall_app. split; [|done].
  apply Forall_replicate. left. lia.
Qed.

Lemma padded_digits w n : Forall iso_char (padded w n).
Proof. apply zfill_digits, str_of_int_digits. Qed.

Lemma isoformat_chars d : Forall iso_char (isoformat d).
Proof.
  unfold isoformat. destruct (microsecond d =? 0)%nat;
    repeat first
      [ apply padded_digits
      | apply Forall_nil_2
      | apply Forall_app; split
      | apply Forall_cons; split; [unfold iso_char; simpl; lia|] ].
Qed.

Lemma digit_not_whitespace c : 48 ≤ c ≤ 57 → is_whitespace c = false.
Proof.
  intros Hc. unfold is_whitespace.
  assert ((c <=? 13) = false) as -> by (apply N.leb_gt; lia).
  assert ((c <=? 32) = false) as -> by (apply N.leb_gt; lia).
  assert ((8192 <=? c) = false) as -> by (apply N.leb_gt; lia).
  repeat match goal with
  | |- context [c =? ?k] =>
      assert ((c =? k) = false) as -> by (apply N.eqb_neq; lia)
  end.
  by rewrite !andb_false_r.
Qed.

Lemma iso_char_plain c :
  iso_char c → c ≠ PIPE ∧ c ≠ LF ∧ c ≠ CR ∧ is_whitespace c = false.
Proof.
  unfold iso_char, PIPE, LF, CR. intros [H|[->|[->|[->| ->]]]];
    [|by repeat split..].
  repeat split; try lia. by apply digit_not_whitespace.
Qed.

Lemma isoformat_plain d : plain (isoformat d).
Proof.
  pose proof (isoformat_chars d) as H.
  unfold plain, one_line. repeat split; intros Hin;
    apply (proj1 (Forall_forall _ _) H) in Hin; apply iso_char_plain in Hin;
    destruct Hin as (? & ? & ? & ?); congruence.
Qed.

Lemma lstrip_isoformat d : lstrip (isoformat d) = isoformat d.
Proof.
  apply lstrip_id. eapply Forall_impl; [apply isoformat_chars|].
  intros c Hc. apply iso_char_plain in Hc. tauto.
Qed.

End Timestamp.

(** *** The line of one request *)

Section Entry.

Implicit Types (ts tid : list N).

Lemma elem_of_lstrip c s : c ∈ lstrip s → c ∈ s.
Proof.
  destruct (lstrip_suffix s) as (ws & Hs & _). intros Hc.
  rewrite Hs. apply elem_of_app. by right.
Qed.

Lemma elem_of_rstrip c s : c ∈ rstrip s → c ∈ s.
Proof.
  destruct (rstrip_prefix s) as (ws & Hs & _). intros Hc.
  rewrite Hs. apply elem_of_app. by left.
Qed.

Lemma strip_entry ts mid ua :
  strip (ts ++ PIPE :: mid ++ PIPE :: ua ++ [LF])
  = lstrip ts ++ PIPE :: mid ++ PIPE :: rstrip ua.
Proof.
  unfold strip. rewrite lstrip_app_stop by done.
  rewrite (app_comm_cons mid), (app_assoc (lstrip ts) (PIPE :: mid)).
  rewrite rstrip_app_stop by done.
  rewrite rstrip_snoc_ws by done. by rewrite <- app_assoc, <- app_comm_cons.
Qed.

Lemma split_two a b :
  ∃ p q rest, split PIPE (a ++ PIPE :: b) = p :: q :: rest.
Proof.
  pose proof (split_length PIPE (a ++ PIPE :: b)) as Hlen.
  rewrite count_char_app in Hlen. unfold count_char at 2 in Hlen.
  rewrite filter_cons, decide_True in Hlen by done. simpl in Hlen.
  destruct (split PIPE (a ++ PIPE :: b)) as [|p [|q rest]]; simpl in Hlen; [lia..|].
  by exists p, q, rest.
Qed.

(** A written line always parses to a record; its id is the one
    written when neither the timestamp nor the id holds a delimiter. *)
Lemma parse_entry ts tid ip ua :
  PIPE ∉ ts → PIPE ∉ tid →
  ∃ p2 p3, parse_log [log_entry ts tid ip ua] = [OpenEvent (lstrip ts) tid p2 p3].
Proof.
  intros Hts Htid. rewrite parse_log_one. unfold log_entry.
  replace (ts ++ [PIPE] ++ tid ++ [PIPE] ++ format_value ip ++ [PIPE]
             ++ format_value ua ++ [LF])
    with (ts ++ PIPE :: (tid ++ PIPE :: format_value ip) ++ PIPE
             :: format_value ua ++ [LF])
    by (by rewrite <- !app_assoc).
  rewrite strip_entry, <- app_assoc. simpl.
  rewrite split_app by (intros H; by apply elem_of_lstrip in H).
  rewrite split_app by done.
  destruct (split_two (format_value ip) (rstrip (format_value ua)))
    as (p2 & p3 & rest & ->).
  by exists p2, p3.
Qed.

(** With plain fields the record is the one written, up to white space
    before the timestamp and after the user agent. *)
Lemma parse_entry_plain ts tid ip ua :
  PIPE ∉ ts → PIPE ∉ tid → PIPE ∉ ip → PIPE ∉ ua →
  parse_log [log_entry ts tid (Some ip) (Some ua)]
  = [OpenEvent (lstrip ts) tid ip (rstrip ua)].
Proof.
  intros Hts Htid Hip Hua. rewrite parse_log_one. unfold log_entry, format_value.
  simpl default.
  replace (ts ++ [PIPE] ++ tid ++ [PIPE] ++ ip ++ [PIPE] ++ ua ++ [LF])
    with (ts ++ PIPE :: (tid ++ PIPE :: ip) ++ PIPE :: ua ++ [LF])
    by (by rewrite <- !app_assoc).
  rewrite strip_entry, <- app_assoc. simpl.
  rewrite split_app by (intros H; by apply elem_of_lstrip in H).
  rewrite split_app by done. rewrite split_app by done.
  rewrite split_no_sep by (intros H; by apply elem_of_rstrip in H).
  done.
Qed.

(** A line without line break inside is read back as one line. *)
Lemma readlines_entry ts tid ip ua :
  one_line ts → one_line tid → one_line (format_value ip) → one_line (format_value ua) →
  ∃ body, log_entry ts tid ip ua = body ++ [LF] ∧ (LF ∉ body) ∧ (CR ∉ body).
Proof.
  intros [H1 H1'] [H2 H2'] [H3 H3'] [H4 H4'].
  exists (ts ++ [PIPE] ++ tid ++ [PIPE] ++ format_value ip ++ [PIPE] ++ format_value ua).
  split; [unfold log_entry; by rewrite <- !app_assoc|].
  rewrite !not_elem_of_app. unfold LF, CR, PIPE in *.
  repeat split; try done;
    (apply not_elem_of_cons; split; [done|apply not_elem_of_nil]).
Qed.

End Entry.

(** *** The pixel handler *)

Section PixelHandler.

Lemma track_pixel_eq E req tid w :
  track_pixel E req tid w =
    (SendFile PIXEL_DATA (lit "image/png"),
     match append_fault E with
     | None =>
         World (Some (default [] (log_file w) ++ call_entry (Call E req tid))) (stdout w)
     | Some (e, left_behind) =>
         World left_behind (stdout w ++ [lit "Error logging: " ++ exc_str e])
     end).
Proof.
  unfold track_pixel, try_except, append_log, print, call_entry, call_ip,
    call_user_agent. simpl.
  destruct (append_fault E) as [[e left_behind]|]; reflexivity.
Qed.

Lemma serve_pixels_log calls w :
  Forall (λ c, append_fault (call_env c) = None) calls →
  default [] (log_file (serve_pixels calls w))
    = default [] (log_file w) ++ concat (call_entry <$> calls)
  ∧ stdout (serve_pixels calls w) = stdout w
  ∧ (calls ≠ [] → is_Some (log_file (serve_pixels calls w))).
Proof.
  unfold serve_pixels. intros Hok. revert w.
  induction Hok as [|c calls Hc _ IH]; intros w.
  - simpl. split; [by rewrite app_nil_r|]. split; done.
  - change (foldl serve_pixel w (c :: calls))
      with (foldl serve_pixel (serve_pixel w c) calls).
    destruct (IH (serve_pixel w c)) as (IH1 & IH2 & IH3).
    assert (serve_pixel w c
            = World (Some (default [] (log_file w) ++ call_entry c)) (stdout w))
      as Hstep.
    { unfold serve_pixel. rewrite track_pixel_eq, Hc. by destruct c. }
    rewrite IH1, IH2, Hstep. simpl. rewrite <- app_assoc.
    split; [done|]. split; [done|]. intros _.
    destruct calls as [|c' calls]; [by eexists|].
    rewrite <- Hstep. by apply IH3.
Qed.

Lemma call_entry_line c :
  call_ok c → ∃ body, call_entry c = body ++ [LF] ∧ (LF ∉ body) ∧ (CR ∉ body).
Proof.
  intros (_ & (_ & Hid) & Hip & Hua). apply readlines_entry; try done.
  apply isoformat_plain.
Qed.

Lemma readlines_entries calls :
  Forall call_ok calls →
  readlines (concat (call_entry <$> calls)) = call_entry <$> calls.
Proof.
  intros Hok.
  assert (∃ bodies, call_entry <$> calls = (λ b, b ++ [LF]) <$> bodies
            ∧ Forall (λ b, LF ∉ b) bodies ∧ Forall (λ b, CR ∉ b) bodies)
    as (bodies & -> & HLF & HCR).
  { induction Hok as [|c calls Hc _ (bodies & IH1 & IH2 & IH3)].
    - by exists [].
    - destruct (call_entry_line c Hc) as (body & Hb & ? & ?).
      exists (body :: bodies). rewrite !fmap_cons, Hb, IH1.
      split; [done|]. split; by constructor. }
  unfold readlines. rewrite translate_newlines_id.
  - by apply splitlines_keepends_concat.
  - clear HLF. induction HCR as [|b bodies Hb _ IH]; simpl.
    + apply not_elem_of_nil.
    + rewrite !not_elem_of_app. split; [split; [done|]|done].
      apply not_elem_of_cons. split; [done|apply not_elem_of_nil].
Qed.

Lemma parse_entries calls :
  Forall call_ok calls →
  tracking_id <$> parse_log (call_entry <$> calls) = call_id <$> calls.
Proof.
  induction 1 as [|c calls Hc _ IH]; [done|].
  rewrite !fmap_cons, parse_log_cons, fmap_app, IH.
  change (call_id c :: (call_id <$> calls)) with ([call_id c] ++ (call_id <$> calls)).
  f_equal.
  destruct Hc as (_ & (Hid & _) & _).
  destruct (parse_entry (isoformat (now (call_env c))) (call_id c) (call_ip c)
              (call_user_agent c)) as (p2 & p3 & Hp); [apply isoformat_plain|done|].
  unfold call_entry. by rewrite Hp.
Qed.

(** After successful requests with plain ids on an empty log, the
    parsed records carry the ids of the requests, in order. *)
Lemma opens_after_requests calls w :
  default [] (log_file w) = [] → Forall call_ok calls →
  tracking_id <$> opens_of (default [] (log_file (serve_pixels calls w)))
    = call_id <$> calls.
Proof.
  intros Hw Hok.
  destruct (serve_pixels_log calls w) as (Hlog & _).
  { eapply Forall_impl; [done|]. by intros c (? & _). }
  rewrite Hlog, Hw. simpl. unfold opens_of.
  by rewrite readlines_entries, parse_entries.
Qed.

End PixelHandler.

(** *** The stats handler *)

Section StatsHandler.

Lemma foldl_html_rows html rows :
  foldl (λ html event, html ++ html_row event) html rows
  = html ++ concat (html_row <$> rows).
Proof.
  revert html. induction rows as [|r rows IH]; intros html; simpl.
  - by rewrite app_nil_r.
  - by rewrite IH, <- app_assoc.
Qed.


Lemma stats_page_eq E w :
  stats_page E w =
    (match log_file w with
     | None =>
         Raised (Exc FileNotFoundError
           (lit "[Errno 2] No such file or directory: '" ++ LOG_FILE E ++ lit "'"))
     | Some content =>
         match read_fault E with
         | Some text => Raised (Exc OtherException text)
         | None => rendered (opens_of content)
         end
     end, w).
Proof.
  unfold stats_page, bind, read_log_lines, lift, ret, rendered, html_summary, opens_of.
  destruct (log_file w) as [content|]; [|done].
  destruct (read_fault E) as [text|]; [done|].
  destruct (open_rate (parse_log (readlines content))) as [rate|e]; [|done].
  rewrite foldl_html_rows. unfold stats_html. by rewrite <- !app_assoc.
Qed.

Lemma open_rate_zero opens :
  opens = [] → open_rate opens = Raised (Exc ZeroDivisionError (lit "division by zero")).
Proof. by intros ->. Qed.

Lemma unique_emails_zero opens : unique_emails opens = 0 ↔ opens = [].
Proof.
  unfold unique_emails. rewrite len_set_zero. split; [|by intros ->].
  by destruct opens.
Qed.

Lemma unique_emails_le opens : unique_emails opens <= total_opens opens.
Proof.
  unfold unique_emails, total_opens. etrans; [apply len_set_le|].
  unfold len. by rewrite length_fmap.
Qed.

Lemma open_rate_raised opens e :
  open_rate opens = Raised e →
  (exc_class e = ZeroDivisionError ∧ opens = [])
  ∨ (exc_class e = OverflowError ∧ opens ≠ []).
Proof.
  unfold open_rate, int_true_divide.
  destruct (N.eqb_spec (unique_emails opens) 0) as [H0|H0].
  - intros [= <-]. left. split; [done|]. by apply unique_emails_zero.
  - assert (opens ≠ []) by (by rewrite <- unique_emails_zero).
    destruct (binary64 _ _); [done| |done]. intros [= <-]. by right.
Qed.

Lemma open_rate_ok opens :
  opens ≠ [] → (Z.of_N (total_opens opens) <= maxsize)%Z →
  ∃ q rate, int_true_divide (total_opens opens) (unique_emails opens) = Ok q
    ∧ open_rate opens = Ok rate ∧ rate = float_mul q (float_of_int 100)
    ∧ float_ge rate 100.
Proof.
  intros Hne Hmax.
  assert (unique_emails opens ≠ 0) as H0 by (by rewrite unique_emails_zero).
  pose proof (unique_emails_le opens) as Hle.
  destruct (rate_normal (Z.of_N (total_opens opens)) (Z.of_N (unique_emails opens)))
    as (q & rate & Hq & Hq1 & Hq2 & Hr & Hr1 & Hr2 & _ & Hge); [lia..|].
  unfold open_rate, int_true_divide.
  destruct (N.eqb_spec (unique_emails opens) 0) as [|_]; [done|].
  rewrite Hq. exists q, rate.
  destruct q; [|done..]. by rewrite Hr.
Qed.

End StatsHandler.

(** *** Lines as read: no carriage return, a line feed only at the end *)

Section LinesAsRead.

Lemma translate_newlines_no_CR_aux n :
  ∀ s, (length s ≤ n)%nat → CR ∉ translate_newlines s.
Proof.
  induction n as [|n IH]; intros s Hlen.
  - destruct s; [apply not_elem_of_nil|simpl in Hlen; lia].
  - destruct s as [|c s]; [apply not_elem_of_nil|]. simpl in Hlen.
    cbn [translate_newlines]. destruct (N.eqb_spec c CR) as [->|Hc].
    + apply not_elem_of_cons. split; [done|].
      destruct s as [|d s]; [apply not_elem_of_nil|]. simpl in Hlen.
      destruct (d =? LF); apply IH; simpl; lia.
    + apply not_elem_of_cons. split; [done|]. apply IH. lia.
Qed.

Lemma translate_newlines_no_CR s : CR ∉ translate_newlines s.
Proof. by apply (translate_newlines_no_CR_aux (length s)). Qed.


Lemma splitlines_keepends_shape s : Forall line_shape (splitlines_keepends s).
Proof.
  induction s as [|c s IH]; cbn [splitlines_keepends]; [constructor|].
  destruct (N.eqb_spec c LF) as [->|Hc].
  - constructor; [|done]. exists []. split; [by left|apply not_elem_of_nil].
  - destruct (splitlines_keepends s) as [|l ls].
    + constructor; [|constructor]. exists [c]. split; [by right|].
      apply not_elem_of_cons. split; [done|apply not_elem_of_nil].
    + inversion IH as [|? ? (body & Hb & HLF) Hls]; subst.
      constructor; [|done]. exists (c :: body). split.
      * destruct Hb as [->| ->]; [by left|by right].
      * apply not_elem_of_cons. by split.
Qed.

Lemma splitlines_keepends_elem c s :
  Forall (λ line, c ∈ line → c ∈ s) (splitlines_keepends s).
Proof.
  induction s as [|d s IH]; cbn [splitlines_keepends]; [constructor|].
  destruct (N.eqb_spec d LF) as [->|Hd].
  - constructor; [set_solver|].
    eapply Forall_impl; [done|]. set_solver.
  - destruct (splitlines_keepends s) as [|l ls].
    + constructor; [|constructor]. set_solver.
    + inversion IH; subst. constructor; [set_solver|].
      eapply Forall_impl; [done|]. set_solver.
Qed.

Lemma lstrip_snoc a x :
  lstrip (a ++ [x]) = [] ∨ ∃ t, lstrip (a ++ [x]) = t ++ [x] ∧ ∀ c, c ∈ t → c ∈ a.
Proof.
  induction a as [|d a IH]; simpl.
  - destruct (is_whitespace x); [by left|]. right. by exists [].
  - destruct (is_whitespace d).
    + destruct IH as [->|(t & -> & Ht)]; [by left|].
      right. exists t. split; [done|]. intros c Hc. right. by apply Ht.
    + right. by exists (d :: a).
Qed.

Lemma strip_line_no_LF line : line_shape line → LF ∉ strip line.
Proof.
  intros (body & [-> | ->] & HLF); unfold strip.
  - destruct (lstrip_snoc body LF) as [->|(t & -> & Ht)]; [apply not_elem_of_nil|].
    rewrite rstrip_snoc_ws by done. intros Hin.
    apply elem_of_rstrip, Ht in Hin. done.
  - intros Hin. by apply elem_of_rstrip, elem_of_lstrip in Hin.
Qed.

Lemma elem_of_strip c s : c ∈ strip s → c ∈ s.
Proof. intros H. by apply elem_of_rstrip, elem_of_lstrip in H. Qed.

Lemma split_elem sep s : Forall (λ p, ∀ c, c ∈ p → c ∈ s) (split sep s).
Proof.
  induction s as [|d s IH]; cbn [split].
  - constructor; [done|constructor].
  - destruct (d =? sep).
    + constructor; [set_solver|]. eapply Forall_impl; [done|]. set_solver.
    + destruct (split sep s) as [|p ps]; [constructor; [set_solver|constructor]|].
      inversion IH; subst. constructor; [set_solver|].
      eapply Forall_impl; [done|]. set_solver.
Qed.

(** The parts of a line as read hold no delimiter and no line break. *)
Lemma parts_plain line :
  line_shape line → CR ∉ line → Forall plain (split PIPE (strip line)).
Proof.
  intros Hshape HCR.
  pose proof (split_parts_no_sep PIPE (strip line)) as H1.
  pose proof (split_elem PIPE (strip line)) as H2.
  apply Forall_forall. intros p Hp.
  pose proof (proj1 (Forall_forall _ _) H1 p Hp) as Hp1.
  pose proof (proj1 (Forall_forall _ _) H2 p Hp) as Hp2. simpl in Hp1, Hp2.
  split; [done|]. split; intros Hin; apply Hp2 in Hin.
  - by apply strip_line_no_LF in Hin.
  - by apply elem_of_strip in Hin.
Qed.


Lemma parse_log_plain lines :
  Forall (λ line, line_shape line ∧ (CR ∉ line)) lines →
  Forall plain_event (parse_log lines).
Proof.
  induction 1 as [|line lines [Hshape HCR] _ IH]; [constructor|].
  rewrite parse_log_cons. apply Forall_app. split; [|done].
  rewrite parse_log_one. pose proof (parts_plain line Hshape HCR) as Hp.
  destruct (split PIPE (strip line)) as [|p0 [|p1 [|p2 [|p3 rest]]]]; try constructor;
    [|constructor].
  apply Forall_cons in Hp as [? Hp]. apply Forall_cons in Hp as [? Hp].
  apply Forall_cons in Hp as [? Hp]. apply Forall_cons in Hp as [? Hp].
  done.
Qed.

(** Every record read from a log has plain fields. *)
Lemma opens_of_plain content : Forall plain_event (opens_of content).
Proof.
  unfold opens_of, readlines. apply parse_log_plain.
  pose proof (splitlines_keepends_shape (translate_newlines content)) as H1.
  pose proof (splitlines_keepends_elem CR (translate_newlines content)) as H2.
  apply Forall_forall. intros line Hl.
  pose proof (proj1 (Forall_forall _ _) H1 line Hl) as Hl1.
  pose proof (proj1 (Forall_forall _ _) H2 line Hl) as Hl2. simpl in Hl1, Hl2.
  split; [done|]. intros Hin. apply Hl2 in Hin.
  by apply translate_newlines_no_CR in Hin.
Qed.

(** The line of plain fields is read back as one line and parsed. *)
Lemma opens_of_plain_entry ts tid ip ua :
  plain ts → plain tid → plain ip → plain ua →
  opens_of (log_entry ts tid (Some ip) (Some ua))
  = [OpenEvent (lstrip ts) tid ip (rstrip ua)].
Proof.
  intros [H1 H1'] [H2 H2'] [H3 H3'] [H4 H4'].
  destruct (readlines_entry ts tid (Some ip) (Some ua)) as (body & Hb & HLF & HCR);
    try done.
  unfold opens_of, readlines. rewrite translate_newlines_id.
  - rewrite Hb, (splitlines_keepends_line body [] HLF). simpl.
    rewrite <- Hb. by apply parse_entry_plain.
  - rewrite Hb. rewrite not_elem_of_app. split; [done|].
    apply not_elem_of_cons. split; [done|apply not_elem_of_nil].
Qed.

End LinesAsRead.

(** *** What the handlers compute *)

Section HandlerEquations.

Lemma view_stats_eq E w :
  view_stats E w =
    (match log_file w with
     | None => BodyStatus (lit "<h1>No tracking data yet</h1>") 404
     | Some content =>
         match read_fault E with
         | Some text => BodyStatus (lit "<h1>Error: " ++ text ++ lit "</h1>") 500
         | None =>
             match rendered (opens_of content) with
             | Ok html => Body html
             | Raised e => BodyStatus (lit "<h1>Error: " ++ exc_str e ++ lit "</h1>") 500
             end
         end
     end, w).
Proof.
  unfold view_stats. rewrite stats_page_eq.
  destruct (log_file w) as [content|]; [|done].
  destruct (read_fault E) as [text|]; [done|].
  unfold rendered.
  destruct (open_rate (opens_of content)) as [rate|e] eqn:Hr; [done|].
  by destruct (open_rate_raised _ _ Hr) as [[-> _]|[-> _]].
Qed.


Lemma url_map_sample :
  url_map (lit "/pixel/ocrevus_20251215_TERR013_thomas.gambade.png")
  = Some (TrackPixel sample_id).
Proof. vm_compute. reflexivity. Qed.

Lemma recent_opens_length opens :
  length (recent_opens opens) = min 50 (length opens).
Proof.
  unfold recent_opens, slice_last. rewrite length_reverse, length_drop. lia.
Qed.

Lemma recent_opens_lookup opens i :
  (i < length (recent_opens opens))%nat →
  recent_opens opens !! i = opens !! (length opens - 1 - i)%nat.
Proof.
  intros Hi. pose proof (recent_opens_length opens) as Hlen.
  unfold recent_opens, slice_last in *.
  rewrite reverse_lookup by (rewrite length_reverse in Hi; done).
  rewrite length_reverse in Hi. rewrite length_drop in *.
  rewrite lookup_drop. f_equal. lia.
Qed.


End HandlerEquations.

(** *** Lines of a file that grows *)

Lemma translate_newlines_app_LF_aux n :
  ∀ a b, (length a ≤ n)%nat →
    translate_newlines (a ++ LF :: b)
    = translate_newlines (a ++ [LF]) ++ translate_newlines b.
Proof.
  induction n as [|n IH]; intros a b Hlen.
  - destruct a; [done|simpl in Hlen; lia].
  - destruct a as [|c a]; [done|]. simpl in Hlen.
    change ((c :: a) ++ LF :: b) with (c :: (a ++ LF :: b)).
    change ((c :: a) ++ [LF]) with (c :: (a ++ [LF])).
    cbn [translate_newlines]. destruct (c =? CR).
    + destruct a as [|d a]; [done|].
      change ((d :: a) ++ LF :: b) with (d :: (a ++ LF :: b)).
      change ((d :: a) ++ [LF]) with (d :: (a ++ [LF])).
      cbn [app]. simpl in Hlen. destruct (d =? LF).
      * rewrite IH by lia. done.
      * change (d :: a ++ LF :: b) with ((d :: a) ++ LF :: b).
        change (d :: a ++ [LF]) with ((d :: a) ++ [LF]).
        rewrite IH by (simpl; lia). done.
    + rewrite IH by lia. done.
Qed.

Lemma translate_newlines_app_LF a b :
  translate_newlines (a ++ LF :: b)
  = translate_newlines (a ++ [LF]) ++ translate_newlines b.
Proof. by apply (translate_newlines_app_LF_aux (length a)). Qed.

Lemma translate_newlines_snoc_LF_aux n :
  ∀ a, (length a ≤ n)%nat → ∃ t, translate_newlines (a ++ [LF]) = t ++ [LF].
Proof.
  induction n as [|n IH]; intros a Hlen.
  - destruct a; [by exists []|simpl in Hlen; lia].
  - destruct a as [|c a]; [by exists []|]. simpl in Hlen.
    change ((c :: a) ++ [LF]) with (c :: (a ++ [LF])).
    cbn [translate_newlines]. destruct (c =? CR).
    + destruct a as [|d a]; [by exists []|].
      change ((d :: a) ++ [LF]) with (d :: (a ++ [LF])).
      cbn [app]. simpl in Hlen. destruct (d =? LF).
      * destruct (IH a ltac:(lia)) as (t & ->). by exists (LF :: t).
      * change (d :: a ++ [LF]) with ((d :: a) ++ [LF]).
        destruct (IH (d :: a) ltac:(simpl; lia)) as (t & ->). by exists (LF :: t).
    + destruct (IH a ltac:(lia)) as (t & ->). by exists (c :: t).
Qed.

Lemma splitlines_keepends_app_LF x y :
  splitlines_keepends ((x ++ [LF]) ++ y)
  = splitlines_keepends (x ++ [LF]) ++ splitlines_keepends y.
Proof.
  induction x as [|c x IH]; [done|].
  change (((c :: x) ++ [LF]) ++ y) with (c :: ((x ++ [LF]) ++ y)).
  change ((c :: x) ++ [LF]) with (c :: (x ++ [LF])).
  cbn [splitlines_keepends]. destruct (c =? LF).
  - by rewrite IH.
  - rewrite IH. destruct (splitlines_keepends (x ++ [LF])) as [|l ls] eqn:Hx; [|done].
    exfalso. clear IH. revert Hx. clear. induction x as [|d x IH]; [done|].
    change ((d :: x) ++ [LF]) with (d :: (x ++ [LF])). cbn [splitlines_keepends].
    destruct (d =? LF); [done|]. by destruct (splitlines_keepends (x ++ [LF])).
Qed.

Lemma readlines_app old more :
  well_terminated old → readlines (old ++ more) = readlines old ++ readlines more.
Proof.
  intros [->|(c & ->)]; [done|]. unfold readlines.
  rewrite <- app_assoc. cbn [app].
  rewrite translate_newlines_app_LF.
  destruct (translate_newlines_snoc_LF_aux (length c) c) as (t & ->); [done|].
  apply splitlines_keepends_app_LF.
Qed.

Lemma translate_newlines_app_aux n :
  ∀ old y, (length old ≤ n)%nat → (CR ∉ y) → head y ≠ Some LF →
    translate_newlines (old ++ y) = translate_newlines old ++ y.
Proof.
  induction n as [|n IH]; intros old y Hlen Hy Hhead.
  - destruct old; [|simpl in Hlen; lia]. by apply translate_newlines_id.
  - destruct old as [|c old]; [by apply translate_newlines_id|]. simpl in Hlen.
    change ((c :: old) ++ y) with (c :: (old ++ y)).
    cbn [translate_newlines]. destruct (c =? CR).
    + destruct old as [|d old].
      * cbn [app]. destruct y as [|e y']; [done|].
        destruct (N.eqb_spec e LF) as [->|_]; [done|].
        by rewrite translate_newlines_id.
      * cbn [app]. simpl in Hlen. destruct (d =? LF).
        -- by rewrite IH by (done || lia).
        -- change (d :: old ++ y) with ((d :: old) ++ y).
           by rewrite IH by (done || simpl; lia).
    + by rewrite IH by (done || lia).
Qed.

Lemma translate_newlines_app old y :
  (CR ∉ y) → head y ≠ Some LF →
  translate_newlines (old ++ y) = translate_newlines old ++ y.
Proof. by apply (translate_newlines_app_aux (length old)). Qed.

Lemma translate_newlines_last_aux n :
  ∀ c x, (length c ≤ n)%nat →
    ∃ t, translate_newlines (c ++ [x]) = t ++ [if x =? CR then LF else x].
Proof.
  induction n as [|n IH]; intros c x Hlen.
  - destruct c; [|simpl in Hlen; lia]. exists []. simpl. by destruct (x =? CR).
  - destruct c as [|a c]; [exists []; simpl; by destruct (x =? CR)|]. simpl in Hlen.
    change ((a :: c) ++ [x]) with (a :: (c ++ [x])).
    cbn [translate_newlines]. destruct (a =? CR).
    + destruct c as [|d c].
      * cbn [app]. destruct (N.eqb_spec x LF) as [->|_]; [by exists []|].
        exists [LF]. simpl. by destruct (x =? CR).
      * cbn [app]. simpl in Hlen. destruct (d =? LF).
        -- destruct (IH c x ltac:(lia)) as (t & ->). by exists (LF :: t).
        -- change (d :: c ++ [x]) with ((d :: c) ++ [x]).
           destruct (IH (d :: c) x ltac:(simpl; lia)) as (t & ->). by exists (LF :: t).
    + destruct (IH c x ltac:(lia)) as (t & ->). by exists (a :: t).
Qed.

Lemma translate_newlines_last c x :
  ∃ t, translate_newlines (c ++ [x]) = t ++ [if x =? CR then LF else x].
Proof. by apply (translate_newlines_last_aux (length c)). Qed.

Lemma splitlines_keepends_open_line t x body :
  x ≠ LF → (LF ∉ body) →
  ∃ ls l, splitlines_keepends (t ++ [x]) = ls ++ [l]
    ∧ splitlines_keepends ((t ++ [x]) ++ body ++ [LF]) = ls ++ [l ++ body ++ [LF]].
Proof.
  intros Hx Hbody. induction t as [|c t (ls & l & IH1 & IH2)].
  - exists [], [x]. cbn [app splitlines_keepends].
    destruct (N.eqb_spec x LF) as [|_]; [done|]. split; [done|].
    by rewrite (splitlines_keepends_line body [] Hbody).
  - change ((c :: t) ++ [x]) with (c :: (t ++ [x])).
    change ((c :: t ++ [x]) ++ body ++ [LF]) with (c :: ((t ++ [x]) ++ body ++ [LF])).
    cbn [splitlines_keepends]. rewrite IH1, IH2. destruct (c =? LF).
    + by exists ([LF] :: ls), l.
    + destruct ls as [|l0 ls]; cbn [app].
      * by exists [], (c :: l).
      * by exists ((c :: l0) :: ls), l.
Qed.

Lemma log_entry_head ts tid ip ua :
  (LF ∉ ts) → head (log_entry ts tid ip ua) ≠ Some LF.
Proof.
  intros Hts. unfold log_entry. destruct ts as [|c ts]; [done|].
  apply not_elem_of_cons in Hts as [Hc _]. simpl. congruence.
Qed.

(** A one-line entry written after [old] is a line of its own exactly
    when [old] is empty or ends with a line break; otherwise it extends
    the last line of [old]. *)
Lemma readlines_after_entry old ts tid ip ua :
  one_line ts → one_line tid → one_line (format_value ip) → one_line (format_value ua) →
  let entry := log_entry ts tid ip ua in
  (at_line_start old → readlines (old ++ entry) = readlines old ++ [entry])
  ∧ (¬ at_line_start old →
       ∃ ls l, readlines old = ls ++ [l] ∧ readlines (old ++ entry) = ls ++ [l ++ entry]).
Proof.
  intros Hts Htid Hip Hua entry.
  destruct (readlines_entry ts tid ip ua) as (body & Hb & HLF & HCR); [done..|].
  assert (head entry ≠ Some LF) as Hhead by (apply log_entry_head, Hts).
  fold entry in Hb.
  assert (CR ∉ entry) as HCRe.
  { rewrite Hb, not_elem_of_app. split; [done|].
    apply not_elem_of_cons. split; [done|apply not_elem_of_nil]. }
  assert (readlines (old ++ entry) = splitlines_keepends (translate_newlines old ++ entry))
    as Hread.
  { unfold readlines. by rewrite translate_newlines_app. }
  assert (splitlines_keepends entry = [entry]) as Hone.
  { rewrite Hb. by rewrite (splitlines_keepends_line body [] HLF). }
  rewrite Hread. unfold readlines.
  destruct (last old) as [x|] eqn:Hlast.
  - apply last_Some in Hlast as (c & ->).
    destruct (translate_newlines_last c x) as (t & Ht). rewrite Ht.
    destruct (decide (x = LF ∨ x = CR)) as [Hx|Hx].
    + assert ((if x =? CR then LF else x) = LF) as ->.
      { destruct Hx as [-> | ->]; done. }
      split; [|intros Hno; destruct Hno; unfold at_line_start; rewrite last_snoc;
               destruct Hx as [-> | ->]; auto].
      intros _. by rewrite splitlines_keepends_app_LF, Hone.
    + assert (x ≠ LF ∧ x ≠ CR) as [HxLF HxCR] by (split; intros ->; apply Hx; auto).
      destruct (N.eqb_spec x CR) as [|_]; [done|].
      split.
      * intros [Hl|[Hl|Hl]]; rewrite last_snoc in Hl; congruence.
      * intros _. rewrite Hb.
        destruct (splitlines_keepends_open_line t x body HxLF HLF) as (ls & l & H1 & H2).
        exists ls, l. by rewrite H1, H2.
  - apply last_None in Hlast as ->. split.
    + intros _. done.
    + intros Hno. destruct Hno. by left.
Qed.

(** Closed goals about sample inputs, settled by evaluation. *)
Ltac by_computation :=
  repeat first
    [ reflexivity
    | split
    | refine (bool_decide_unpack _ _); vm_compute; exact I
    | constructor ].

(** ** The model on concrete values *)

(** The values on the right are those the interpreter gives. *)

Section Checks.

Example strip_then_split :
  split PIPE (strip (lit "  a|b||d " ++ [9; LF])) = [lit "a"; lit "b"; []; lit "d"]
  ∧ split PIPE [] = [[]]
  ∧ strip ([28; 32] ++ lit "a" ++ [133]) = lit "a".
Proof. by_computation. Qed.

Example readlines_universal_newlines :
  readlines (lit "a|b" ++ [CR; LF] ++ lit "c" ++ [CR] ++ lit "d" ++ [LF; LF] ++ lit "e")
  = [lit "a|b" ++ [LF]; lit "c" ++ [LF]; lit "d" ++ [LF]; [LF]; lit "e"].
Proof. vm_compute. reflexivity. Qed.

Example isoformat_of_clock :
  isoformat sample_clock = lit "2025-12-15T09:03:07.004321"
  ∧ isoformat {| year := 2025; month := 12; day := 15;
                 hour := 9; minute := 3; second := 7; microsecond := 0 |}
    = lit "2025-12-15T09:03:07".
Proof. by_computation. Qed.

Example rate_texts :
  rate_text 4 3 = lit "133.3"
  ∧ rate_text 1 3 = lit "33.3"
  ∧ rate_text 2001 2000 = lit "100.0"
  ∧ rate_text 2003 2000 = lit "100.2"
  ∧ rate_text 2005 2000 = lit "100.2"
  ∧ rate_text 999999 7 = lit "14285700.0"
  ∧ rate_text 9223372036854775807 1 = lit "922337203685477580800.0"
  ∧ rate_text 9223372036854775807 4611686018427387905 = lit "200.0"
  ∧ rate_text 5 0 = lit "division by zero".
Proof. by_computation. Qed.

Example three_opens_one_id_rate :
  open_rate (opens_of three_opens_one_id)
  = Ok (float_mul (float_of_int 3) (float_of_int 100))
  ∧ format_1f (float_mul (float_of_int 3) (float_of_int 100)) = lit "300.0".
Proof. split; vm_compute; reflexivity. Qed.

Example sixty_lines_fifty_rows :
  length (opens_of sixty_lines) = 60%nat
  ∧ length (recent_opens (opens_of sixty_lines)) = 50%nat.
Proof. by_computation. Qed.

Example stats_before_any_request :
  fst (view_stats sample_env empty_world)
  = BodyStatus (lit "<h1>No tracking data yet</h1>") 404.
Proof. reflexivity. Qed.

Example write_failure_is_printed :
  track_pixel failing_env sample_request sample_id empty_world
  = (SendFile PIXEL_DATA (lit "image/png"),
     World None [lit "Error logging: [Errno 28] No space left on device"]).
Proof. vm_compute. reflexivity. Qed.

End Checks.

(** ** The claims *)





(** C3, as stated, fails: the line [t|id|ip|ua ], which ends with a
    space, has the fourth part [ua ] when split on the delimiter, yet the
    record parsed from it has the user agent [ua]: the parser strips the
    line before it splits it. *)
Lemma line_ending_with_space_counterexample :
  split PIPE (lit "t|id|ip|ua ") = [lit "t"; lit "id"; lit "ip"; lit "ua "]
  ∧ opens_of (lit "t|id|ip|ua " ++ [LF])
    = [OpenEvent (lit "t") (lit "id") (lit "ip") (lit "ua")]
  ∧ opens_of (lit "t|id|ip|ua " ++ [LF])
    ≠ [OpenEvent (lit "t") (lit "id") (lit "ip") (lit "ua ")].
Proof.
  split; [vm_compute; reflexivity|]. split; [vm_compute; reflexivity|].
  vm_compute. intros H. discriminate H.
Qed.

(** C3, amended.  The parser handles each line on its own: the line is
    stripped of leading and trailing white space (its terminator
    included), which never changes the number of parts, and then split on
    the delimiter.  A line with at least four parts gives exactly one
    record, made of the first four parts of the stripped line, the others
    being dropped; a line with fewer than four parts (such as one with
    two fields) gives no record and so counts in neither [total_opens]
    nor [unique_emails]. *)
Theorem parser_keeps_lines_with_four_parts (before after : list str) (line : str) :
  let parts := split PIPE (strip line) in
  length parts = length (split PIPE line)
  ∧ length parts = S (count_char PIPE line)
  ∧ parse_log (before ++ line :: after)
    = parse_log before
      ++ match parts with
         | p0 :: p1 :: p2 :: p3 :: _ => [OpenEvent p0 p1 p2 p3]
         | _ => []
         end
      ++ parse_log after
  ∧ ((length parts < 4)%nat →
       parse_log (before ++ line :: after) = parse_log (before ++ after)
       ∧ total_opens (parse_log (before ++ line :: after))
         = total_opens (parse_log (before ++ after))
       ∧ unique_emails (parse_log (before ++ line :: after))
         = unique_emails (parse_log (before ++ after))).
Proof.
  intros parts.
  assert (parse_log (before ++ line :: after)
          = parse_log before
            ++ match parts with
               | p0 :: p1 :: p2 :: p3 :: _ => [OpenEvent p0 p1 p2 p3]
               | _ => []
               end
            ++ parse_log after) as Hparse.
  { by rewrite parse_log_app, parse_log_cons, parse_log_one. }
  split; [apply split_strip_length|].
  split; [unfold parts; by rewrite split_strip_length, split_length|].
  split; [done|]. intros Hshort.
  assert (parse_log (before ++ line :: after) = parse_log (before ++ after)) as ->.
  { rewrite Hparse, parse_log_app.
    destruct parts as [|p0 [|p1 [|p2 [|p3 rest]]]]; simpl in Hshort; try done. lia. }
  done.
Qed.

Lemma parser_keeps_lines_with_four_parts_witness :
  parse_log ([lit "t1|id1|ip1|ua1"] ++ lit "only|two" :: [lit "t2|id2|ip2|ua2"])
  = parse_log ([lit "t1|id1|ip1|ua1"] ++ [lit "t2|id2|ip2|ua2"])
  ∧ total_opens (parse_log ([lit "t1|id1|ip1|ua1"] ++ lit "only|two" :: [lit "t2|id2|ip2|ua2"]))
    = total_opens (parse_log ([lit "t1|id1|ip1|ua1"] ++ [lit "t2|id2|ip2|ua2"]))
  ∧ unique_emails (parse_log ([lit "t1|id1|ip1|ua1"] ++ lit "only|two" :: [lit "t2|id2|ip2|ua2"]))
    = unique_emails (parse_log ([lit "t1|id1|ip1|ua1"] ++ [lit "t2|id2|ip2|ua2"])).
Proof.
  apply (parser_keeps_lines_with_four_parts
           [lit "t1|id1|ip1|ua1"] [lit "t2|id2|ip2|ua2"] (lit "only|two")).
  vm_compute. lia.
Defined.

(** C4, as stated, fails: a user agent that ends with a space holds no
    delimiter and no line break, yet the record read back has lost the
    space, because every line is stripped before it is split. *)
Lemma roundtrip_trailing_space_counterexample :
  (PIPE ∉ lit "2025-12-15T09:03:07" ++ lit "a" ++ lit "1.2.3.4" ++ lit "curl/8.0 ")
  ∧ (LF ∉ lit "2025-12-15T09:03:07" ++ lit "a" ++ lit "1.2.3.4" ++ lit "curl/8.0 ")
  ∧ (CR ∉ lit "2025-12-15T09:03:07" ++ lit "a" ++ lit "1.2.3.4" ++ lit "curl/8.0 ")
  ∧ parse_log (readlines (log_entry (lit "2025-12-15T09:03:07") (lit "a")
                   (Some (lit "1.2.3.4")) (Some (lit "curl/8.0 "))))
    = [OpenEvent (lit "2025-12-15T09:03:07") (lit "a") (lit "1.2.3.4") (lit "curl/8.0")]
  ∧ parse_log (readlines (log_entry (lit "2025-12-15T09:03:07") (lit "a")
                   (Some (lit "1.2.3.4")) (Some (lit "curl/8.0 "))))
    ≠ [OpenEvent (lit "2025-12-15T09:03:07") (lit "a") (lit "1.2.3.4") (lit "curl/8.0 ")].
Proof.
  split; [by_computation|]. split; [by_computation|]. split; [by_computation|].
  split; [vm_compute; reflexivity|]. vm_compute. intros H. discriminate H.
Qed.

(** C4, amended.  Parsing the line written for a timestamp, an id, an
    address and a user agent yields exactly one record equal to these
    four values if and only if none of them holds a delimiter, a line
    feed or a carriage return, the timestamp does not start with white
    space and the user agent does not end with white space.  Nothing is
    escaped, so the equality fails whenever a field holds a delimiter or a
    line break. *)
Theorem log_line_roundtrip (ts tid ip ua : str) :
  parse_log (readlines (log_entry ts tid (Some ip) (Some ua)))
  = [OpenEvent ts tid ip ua]
  ↔ plain ts ∧ plain tid ∧ plain ip ∧ plain ua ∧ lstrip ts = ts ∧ rstrip ua = ua.
Proof.
  change (parse_log (readlines (log_entry ts tid (Some ip) (Some ua))))
    with (opens_of (log_entry ts tid (Some ip) (Some ua))).
  split.
  - intros Hrt.
    pose proof (opens_of_plain (log_entry ts tid (Some ip) (Some ua))) as Hplain.
    rewrite Hrt in Hplain. apply Forall_cons in Hplain as [(H1 & H2 & H3 & H4) _].
    simpl in H1, H2, H3, H4.
    rewrite opens_of_plain_entry in Hrt by done. by injection Hrt as -> ->.
  - intros (H1 & H2 & H3 & H4 & Hts & Hua).
    by rewrite opens_of_plain_entry, Hts, Hua.
Qed.

Lemma log_line_roundtrip_witness :
  parse_log (readlines (log_entry (lit "2025-12-15T09:03:07.004321") sample_id
                          (Some (lit "10.0.0.1")) (Some (lit "Mozilla/5.0 (X11; Linux)"))))
  = [OpenEvent (lit "2025-12-15T09:03:07.004321") sample_id (lit "10.0.0.1")
       (lit "Mozilla/5.0 (X11; Linux)")].
Proof.
  apply (proj2 (log_line_roundtrip (lit "2025-12-15T09:03:07.004321") sample_id
                  (lit "10.0.0.1") (lit "Mozilla/5.0 (X11; Linux)"))).
  by_computation.
Defined.

(** C5.  For a log file that exists and can be read: the [try] block
    raises [ZeroDivisionError] exactly when no record parses, that is
    when [unique_emails = 0], and the handler then answers 500 with the
    text [division by zero]; when at least one record parses (their number
    being a list length, at most [sys.maxsize]) the division returns a
    float [q], equal to [float(total_opens)] when all records share one
    id, and the page shows [q * 100] formatted with one decimal. *)
Theorem open_rate_or_division_error (E : env) (w : world) (content : str) :
  log_file w = Some content →
  read_fault E = None →
  let opens := opens_of content in
  ((∃ e, fst (stats_page E w) = Raised e ∧ exc_class e = ZeroDivisionError)
     ↔ opens = [])
  ∧ (opens = [] ↔ unique_emails opens = 0)
  ∧ (opens = [] →
       fst (view_stats E w)
       = BodyStatus (lit "<h1>Error: division by zero</h1>") 500)
  ∧ (opens ≠ [] → (Z.of_N (total_opens opens) <= maxsize)%Z →
       ∃ q, int_true_divide (total_opens opens) (unique_emails opens) = Ok q
         ∧ (unique_emails opens = 1 → q = float_of_int (total_opens opens))
         ∧ fst (view_stats E w)
           = Body (stats_html (total_opens opens) (unique_emails opens)
                     (format_1f (float_mul q (float_of_int 100)))
                     (recent_opens opens))).
Proof.
  intros Hlog Hread opens.
  assert (fst (stats_page E w) = rendered opens) as Hpage.
  { by rewrite stats_page_eq, Hlog, Hread. }
  split; [|split; [by rewrite unique_emails_zero|split]].
  - rewrite Hpage. unfold rendered. split.
    + intros (e & He & Hclass).
      destruct (open_rate opens) as [rate|e'] eqn:Hr; [done|].
      injection He as ->.
      destruct (open_rate_raised _ _ Hr) as [[_ ?]|[Ho _]]; [done|congruence].
    + intros Hnil. rewrite (open_rate_zero _ Hnil). by eexists.
  - intros Hnil. rewrite view_stats_eq, Hlog, Hread. simpl.
    fold opens. unfold rendered. by rewrite (open_rate_zero _ Hnil).
  - intros Hne Hmax.
    destruct (open_rate_ok opens Hne Hmax) as (q & rate & Hq & Hrate & -> & _).
    exists q. split; [done|]. split.
    + intros H1. unfold int_true_divide in Hq. rewrite H1 in Hq. simpl in Hq.
      unfold float_of_int. destruct (binary64 _ 1); congruence.
    + rewrite view_stats_eq, Hlog, Hread. simpl. fold opens.
      unfold rendered. by rewrite Hrate.
Qed.

Lemma open_rate_or_division_error_witness :
  fst (view_stats sample_env (World (Some []) []))
  = BodyStatus (lit "<h1>Error: division by zero</h1>") 500
  ∧ ∃ q, int_true_divide (total_opens (opens_of three_opens_one_id))
           (unique_emails (opens_of three_opens_one_id)) = Ok q
      ∧ (unique_emails (opens_of three_opens_one_id) = 1 →
           q = float_of_int (total_opens (opens_of three_opens_one_id)))
      ∧ fst (view_stats sample_env (World (Some three_opens_one_id) []))
        = Body (stats_html (total_opens (opens_of three_opens_one_id))
                  (unique_emails (opens_of three_opens_one_id))
                  (format_1f (float_mul q (float_of_int 100)))
                  (recent_opens (opens_of three_opens_one_id))).
Proof.
  split.
  - apply (open_rate_or_division_error sample_env (World (Some []) []) []);
      reflexivity.
  - apply (open_rate_or_division_error sample_env
             (World (Some three_opens_one_id) []) three_opens_one_id);
      [reflexivity|reflexivity|vm_compute; discriminate|vm_compute; discriminate].
Defined.

(** C6.  The stats handler answers by what its [try] block did: 200
    with the page when it returned one, 404 with the fixed message when it
    raised [FileNotFoundError], 500 with the text of the exception in the
    body for any other exception.  [FileNotFoundError] is raised exactly
    when the log file does not exist, so the three statuses partition the
    outcomes and 404 is answered exactly for a missing file. *)
Theorem stats_status_partition (E : env) (w : world) :
  let r := fst (view_stats E w) in
  match fst (stats_page E w) with
  | Ok html => r = Body html ∧ status_code (make_response r) = 200%nat
  | Raised e =>
      match exc_class e with
      | FileNotFoundError =>
          r = BodyStatus (lit "<h1>No tracking data yet</h1>") 404
          ∧ status_code (make_response r) = 404%nat
      | _ =>
          r = BodyStatus (lit "<h1>Error: " ++ exc_str e ++ lit "</h1>") 500
          ∧ status_code (make_response r) = 500%nat
      end
  end
  ∧ ((∃ e, fst (stats_page E w) = Raised e ∧ exc_class e = FileNotFoundError)
       ↔ log_file w = None)
  ∧ (status_code (make_response r) = 404%nat ↔ log_file w = None)
  ∧ (status_code (make_response r) = 200%nat
       ↔ ∃ html, fst (stats_page E w) = Ok html)
  ∧ (status_code (make_response r) = 500%nat
       ↔ ∃ e, fst (stats_page E w) = Raised e ∧ exc_class e ≠ FileNotFoundError).
Proof.
  intros r. subst r. unfold view_stats.
  assert ((∃ e, fst (stats_page E w) = Raised e ∧ exc_class e = FileNotFoundError)
            ↔ log_file w = None) as Hmissing.
  { rewrite stats_page_eq. simpl. destruct (log_file w) as [content|].
    - split; [|done]. intros (e & He & Hclass).
      destruct (read_fault E) as [text|]; [by injection He as <-|].
      unfold rendered in He.
      destruct (open_rate (opens_of content)) as [rate|e'] eqn:Hr; [done|].
      injection He as ->.
      destruct (open_rate_raised _ _ Hr) as [[? _]|[? _]]; congruence.
    - split; [done|]. intros _. by eexists. }
  split; [|split; [done|]].
  - destruct (stats_page E w) as [[html|e] w']; simpl; [done|].
    by destruct (exc_class e).
  - rewrite <- Hmissing.
    destruct (stats_page E w) as [[html|e] w']; simpl.
    + split; [split|split].
      * done.
      * by intros (e & ? & _).
      * split; [by eexists|done].
      * split; [done|by intros (e & ? & _)].
    + destruct (exc_class e) eqn:Hclass; simpl;
        (split; [split|split; split]); try done;
        try (by intros (? & ? & ?)); try (by intros (? & ?));
        try (intros _; by eexists);
        try (intros (e' & [= <-] & ?); congruence);
        try (intros _; exists e; split; [done|congruence]).
Qed.

(** C7, as stated, fails: the path [/pixel/a%0Ab.png], whose id holds a
    line feed, routes to the pixel handler, and the successful request
    adds two lines to the log, not one. *)
Lemma line_feed_in_id_counterexample :
  append_fault sample_env = None
  ∧ url_map (lit "/pixel/a" ++ [LF] ++ lit "b.png")
    = Some (TrackPixel (lit "a" ++ [LF] ++ lit "b"))
  ∧ readlines (default [] (log_file (snd (track_pixel sample_env sample_request
                                            (lit "a" ++ [LF] ++ lit "b") empty_world))))
    = [lit "2025-12-15T09:03:07.004321|a" ++ [LF];
       lit "b|10.0.0.1|Mozilla/5.0" ++ [LF]]
  ∧ length (readlines (default [] (log_file (snd (track_pixel sample_env sample_request
                                            (lit "a" ++ [LF] ++ lit "b") empty_world)))))
    ≠ 1%nat.
Proof.
  split; [reflexivity|]. split; [vm_compute; reflexivity|].
  split; [vm_compute; reflexivity|]. vm_compute. intros H. discriminate H.
Qed.

(** C7, amended.  When the write succeeds, a pixel request leaves the
    stored log as a prefix and adds after it exactly the text
    [timestamp|tracking_id|ip|user_agent] followed by a line feed,
    printing nothing.  When id, address and user agent hold no line
    break, that text read alone is one line, and it is one line of the
    file (the lines of the file are the lines stored before followed by
    it) exactly when the stored log is empty or ends with a line break;
    otherwise it is joined to the last stored line.  Its second field is
    the id whenever the id holds no delimiter.  The path
    [/pixel/ocrevus_20251215_TERR013_thomas.gambade.png] routes to the
    pixel handler with the id [ocrevus_20251215_TERR013_thomas.gambade],
    which is then the second field of the text. *)
Theorem pixel_appends_one_line (E : env) (req : request) (tracking_id : str) (w : world) :
  append_fault E = None →
  let ip := headers_get (x_forwarded_for req) (remote_addr req) in
  let user_agent := headers_get (user_agent_header req) (Some (lit "Unknown")) in
  let entry := isoformat (now E) ++ [PIPE] ++ tracking_id ++ [PIPE]
                 ++ format_value ip ++ [PIPE] ++ format_value user_agent ++ [LF] in
  let old := default [] (log_file w) in
  let new := default [] (log_file (snd (track_pixel E req tracking_id w))) in
  snd (track_pixel E req tracking_id w)
  = World (Some (default [] (log_file w) ++ entry)) (stdout w)
  ∧ ((PIPE ∉ tracking_id) →
       ∃ rest, split PIPE entry = isoformat (now E) :: tracking_id :: rest)
  ∧ (one_line tracking_id → one_line (format_value ip) →
     one_line (format_value user_agent) →
       readlines entry = [entry]
       ∧ (readlines new = readlines old ++ [entry] ↔ at_line_start old)
       ∧ (¬ at_line_start old →
            ∃ ls l, readlines old = ls ++ [l] ∧ readlines new = ls ++ [l ++ entry]))
  ∧ url_map (lit "/pixel/ocrevus_20251215_TERR013_thomas.gambade.png")
    = Some (TrackPixel (lit "ocrevus_20251215_TERR013_thomas.gambade"))
  ∧ (tracking_id = lit "ocrevus_20251215_TERR013_thomas.gambade" →
       nth 1 (split PIPE entry) [] = lit "ocrevus_20251215_TERR013_thomas.gambade").
Proof.
  intros Hok ip user_agent entry old new.
  assert ((PIPE ∉ tracking_id) →
          ∃ rest, split PIPE entry = isoformat (now E) :: tracking_id :: rest)
    as Hfields.
  { intros Hid. subst entry. simpl.
    rewrite split_app by apply isoformat_plain. rewrite split_app by done.
    by eexists. }
  assert (new = old ++ entry) as Hnew.
  { unfold new. rewrite track_pixel_eq, Hok. done. }
  split; [|split; [done|split; [|split]]].
  - rewrite track_pixel_eq, Hok. done.
  - intros H1 H2 H3. rewrite Hnew.
    change entry with (log_entry (isoformat (now E)) tracking_id ip user_agent).
    destruct (readlines_after_entry old (isoformat (now E)) tracking_id ip user_agent)
      as (Hstart & Hjoin); [apply isoformat_plain|done..|].
    split.
    { destruct (readlines_after_entry [] (isoformat (now E)) tracking_id ip user_agent)
        as (Hempty & _); [apply isoformat_plain|done..|].
      apply Hempty. by left. }
    split; [|done].
    split; [|done]. intros Heq.
    destruct (decide (at_line_start old)) as [|Hno]; [done|].
    destruct (Hjoin Hno) as (ls & l & Hold & Hlines).
    rewrite Hold, Hlines in Heq. apply (f_equal length) in Heq.
    rewrite !length_app in Heq. simpl in Heq. lia.
  - apply url_map_sample.
  - intros ->. destruct Hfields as (rest & ->); [|done].
    refine (bool_decide_unpack _ _). vm_compute. exact I.
Qed.

Lemma pixel_appends_one_line_witness :
  snd (track_pixel sample_env sample_request sample_id logged_world)
  = World (Some (earlier_line ++ [LF]
                 ++ lit "2025-12-15T09:03:07.004321|ocrevus_20251215_TERR013_thomas.gambade|10.0.0.1|Mozilla/5.0"
                 ++ [LF])) []
  ∧ readlines (default [] (log_file (snd (track_pixel sample_env sample_request
                                            sample_id logged_world))))
    = readlines (earlier_line ++ [LF])
      ++ [lit "2025-12-15T09:03:07.004321|ocrevus_20251215_TERR013_thomas.gambade|10.0.0.1|Mozilla/5.0"
          ++ [LF]].
Proof.
  destruct (pixel_appends_one_line sample_env sample_request sample_id logged_world
              eq_refl) as (Hworld & _ & Hlines & _).
  split.
  - rewrite Hworld. vm_compute. reflexivity.
  - destruct Hlines as (_ & Hiff & _); [by_computation..|].
    rewrite (proj2 Hiff); [vm_compute; reflexivity|]. right. left. reflexivity.
Defined.

(** C8.  For every log content the rows of the table are the last
    [min 50 total_opens] parsed records, most recent first: row [i] shows
    record [total_opens - 1 - i].  When the log can be read and a record
    parses (their number being a list length, at most [sys.maxsize]) the
    handler serves the page, and the page holds exactly these rows, in
    this order, between the table header and the closing text; when no
    record parses no page, and so no table, is served.  A row shows the
    first 19 characters of the timestamp and the first 80 of the user
    agent; the records shown are the parsed ones, and the handler leaves
    the log as it found it. *)
Theorem recent_rows_of_table (E : env) (content : str) (out : list str) :
  let w := World (Some content) out in
  let opens := opens_of content in
  let shown := recent_opens opens in
  length shown = min 50 (length opens)
  ∧ shown = reverse (drop (length opens - min 50 (length opens)) opens)
  ∧ (∀ i, (i < length shown)%nat → shown !! i = opens !! (length opens - 1 - i)%nat)
  ∧ (read_fault E = None → opens ≠ [] → (Z.of_N (total_opens opens) <= maxsize)%Z →
       ∃ rate, fst (view_stats E w)
               = Body (html_head ++ str_of_int (total_opens opens)
                       ++ html_after_total ++ str_of_int (unique_emails opens)
                       ++ html_after_unique ++ rate ++ html_after_rate
                       ++ concat (html_row <$> shown) ++ html_tail)
         ∧ length (html_row <$> shown) = min 50 (length opens))
  ∧ (opens = [] → ∀ html, fst (view_stats E w) ≠ Body html)
  ∧ (∀ html, fst (view_stats E w) = Body html →
       ∃ rate, html = html_head ++ str_of_int (total_opens opens)
                 ++ html_after_total ++ str_of_int (unique_emails opens)
                 ++ html_after_unique ++ rate ++ html_after_rate
                 ++ concat (html_row <$> shown) ++ html_tail)
  ∧ (∀ event, html_row event
       = row_open ++ take 19 (timestamp event)
         ++ row_next_cell ++ tracking_id event
         ++ row_next_cell ++ ip event
         ++ row_next_cell ++ take 80 (user_agent event) ++ row_close)
  ∧ (∀ event, event ∈ shown → event ∈ opens)
  ∧ snd (view_stats E w) = w.
Proof.
  intros w opens shown.
  split; [apply recent_opens_length|].
  split; [unfold shown, recent_opens, slice_last; do 2 f_equal; lia|].
  split; [apply recent_opens_lookup|].
  split; [|split; [|split; [|split; [done|split]]]].
  - intros Hread Hne Hmax.
    destruct (open_rate_ok opens Hne Hmax) as (q & rate & _ & Hrate & _ & _).
    exists (format_1f rate). split.
    + rewrite view_stats_eq. simpl. rewrite Hread. fold opens.
      unfold rendered. by rewrite Hrate.
    + rewrite length_fmap. apply recent_opens_length.
  - intros Hnil html. rewrite view_stats_eq. simpl.
    destruct (read_fault E) as [text|]; [done|].
    fold opens. unfold rendered. by rewrite (open_rate_zero _ Hnil).
  - intros html. rewrite view_stats_eq. simpl.
    destruct (read_fault E) as [text|]; [done|].
    fold opens. unfold rendered.
    destruct (open_rate opens) as [rate|e]; [|done].
    intros [= <-]. by exists (format_1f rate).
  - intros event. unfold shown, recent_opens, slice_last.
    rewrite elem_of_reverse. intros Hin.
    rewrite <- (take_drop (length opens - 50) opens). apply elem_of_app. by right.
  - by rewrite view_stats_eq.
Qed.

Lemma recent_rows_of_table_witness :
  length (opens_of sixty_two_lines) = 62%nat
  ∧ tracking_id <$> take 3 (recent_opens (opens_of sixty_two_lines))
    = [lit "ocrevus_20251215_TERR014_x"; sample_id; lit "id"]
  ∧ ∃ rate,
      fst (view_stats sample_env (World (Some sixty_two_lines) []))
      = Body (html_head ++ str_of_int (total_opens (opens_of sixty_two_lines))
              ++ html_after_total ++ str_of_int (unique_emails (opens_of sixty_two_lines))
              ++ html_after_unique ++ rate ++ html_after_rate
              ++ concat (html_row <$> recent_opens (opens_of sixty_two_lines))
              ++ html_tail)
      ∧ length (html_row <$> recent_opens (opens_of sixty_two_lines))
        = min 50 (length (opens_of sixty_two_lines)).
Proof.
  split; [vm_compute; reflexivity|]. split; [vm_compute; reflexivity|].
  apply (recent_rows_of_table sample_env sixty_two_lines []).
  - reflexivity.
  - vm_compute. discriminate.
  - vm_compute. discriminate.
Defined.

(** C9.  For every log content, [unique_emails <= total_opens] and
    [unique_emails = 0] exactly when [total_opens = 0]; so whenever a
    record parses (their number being a list length, at most
    [sys.maxsize]) the division is defined and the open rate is a finite
    float of value at least 100. *)
Theorem stats_counts_invariant (content : str) :
  let opens := opens_of content in
  unique_emails opens <= total_opens opens
  ∧ (unique_emails opens = 0 ↔ total_opens opens = 0)
  ∧ (total_opens opens ≠ 0 → (Z.of_N (total_opens opens) <= maxsize)%Z →
       ∃ rate, open_rate opens = Ok rate ∧ float_ge rate 100).
Proof.
  intros opens.
  assert (total_opens opens = 0 ↔ opens = []) as Htotal.
  { unfold total_opens, len. destruct opens; [done|]. split; [|done]. simpl. lia. }
  split; [apply unique_emails_le|].
  split; [by rewrite unique_emails_zero, Htotal|].
  intros Hne Hmax. rewrite Htotal in Hne.
  destruct (open_rate_ok opens Hne Hmax) as (q & rate & _ & Hrate & _ & Hge).
  by exists rate.
Qed.

Lemma stats_counts_invariant_witness :
  ∃ rate, open_rate (opens_of three_opens_one_id) = Ok rate ∧ float_ge rate 100.
Proof.
  apply (stats_counts_invariant three_opens_one_id);
    vm_compute; discriminate.
Defined.

(** C10.  The stats handler leaves the world, and so the log, as it
    found it, whatever it answers; the health handler returns the fixed
    payload [status: running], [service: Ocrevus Email Tracker],
    [version: 1.0] and leaves the world unchanged.  Of the three
    endpoints only the pixel handler can change the world, and a
    successful pixel request does change the log. *)
Theorem only_the_pixel_handler_writes (E : env) (req : request) (w : world) :
  snd (view_stats E w) = w
  ∧ home w
    = (Dict [(lit "status", lit "running");
             (lit "service", lit "Ocrevus Email Tracker");
             (lit "version", lit "1.0")], w)
  ∧ (∀ e, snd (dispatch E req e w) ≠ w → ∃ tracking_id, e = TrackPixel tracking_id)
  ∧ (∀ tracking_id, append_fault E = None →
       log_file (snd (dispatch E req (TrackPixel tracking_id) w)) ≠ log_file w)
  ∧ url_map (lit "/stats") = Some ViewStats
  ∧ url_map (lit "/") = Some Home.
Proof.
  assert (snd (view_stats E w) = w) as Hstats by (by rewrite view_stats_eq).
  split; [done|]. split; [done|]. split; [|split; [|by split]].
  - intros [tid| |] Hchanged; simpl in Hchanged; [by eexists|done..].
  - intros tid Hok. simpl. rewrite track_pixel_eq, Hok. simpl.
    unfold call_entry, log_entry. simpl.
    destruct (log_file w) as [content|]; simpl; [|done].
    intros [= Heq]. apply (f_equal length) in Heq.
    rewrite !length_app in Heq. simpl in Heq. lia.
Qed.

(** * Further properties *)

(** A character absent from every piece is absent from the whole. *)
Ltac absent :=
  repeat first
    [ done
    | apply not_elem_of_nil
    | rewrite not_elem_of_app
    | rewrite not_elem_of_cons
    | split ].

(** ** Invariant of the parsed records *)

Lemma lstrip_fixed_head s :
  lstrip s = s → s = [] ∨ ∃ c s', s = c :: s' ∧ is_whitespace c = false.
Proof.
  destruct s as [|c s']; [by left|]. intros H. right. exists c, s'. split; [done|].
  destruct (is_whitespace c) eqn:Hc; [|done]. simpl in H. rewrite Hc in H.
  destruct (lstrip_suffix s') as (ws & Hs & _).
  apply (f_equal length) in H. apply (f_equal length) in Hs.
  rewrite length_app in Hs. simpl in H. lia.
Qed.

Lemma lstrip_lstrip s : lstrip (lstrip s) = lstrip s.
Proof.
  induction s as [|c s IH]; [done|]. simpl.
  destruct (is_whitespace c) eqn:Hc; [done|]. simpl. by rewrite Hc.
Qed.

Lemma lstrip_strip s : lstrip (strip s) = strip s.
Proof.
  unfold strip. pose proof (lstrip_lstrip s) as Hy.
  destruct (lstrip_fixed_head _ Hy) as [->|(c & y' & Hy' & Hc)]; [done|].
  destruct (rstrip_prefix (lstrip s)) as (ws & Hs & _).
  destruct (rstrip (lstrip s)) as [|d r] eqn:Hr; [done|].
  rewrite Hy' in Hs. simpl in Hs. injection Hs as <- _.
  simpl. by rewrite Hc.
Qed.

Lemma split_head_no_space s :
  lstrip s = s → ∃ p ps, split PIPE s = p :: ps ∧ lstrip p = p.
Proof.
  intros H. destruct (lstrip_fixed_head _ H) as [->|(c & s' & -> & Hc)].
  - by exists [], [].
  - cbn [split]. destruct (c =? PIPE); [by exists [], (split PIPE s')|].
    destruct (split PIPE s') as [|p ps]; eexists _, _; (split; [done|]);
      simpl; by rewrite Hc.
Qed.

Lemma parse_log_timestamps lines :
  Forall (λ r, lstrip (timestamp r) = timestamp r) (parse_log lines).
Proof.
  induction lines as [|line lines IH]; [constructor|].
  rewrite parse_log_cons. apply Forall_app. split; [|done].
  rewrite parse_log_one.
  destruct (split_head_no_space _ (lstrip_strip line)) as (p & ps & -> & Hp).
  destruct ps as [|p1 [|p2 [|p3 rest]]]; repeat constructor. done.
Qed.

(** X1.  Whatever the log holds, no field of a parsed record holds a
    delimiter, a line feed or a carriage return, and no timestamp starts
    with white space. *)
Theorem parsed_records_are_plain (content : list N) :
  Forall (λ r, plain_event r ∧ lstrip (timestamp r) = timestamp r) (opens_of content).
Proof.
  apply Forall_and. split; [apply opens_of_plain|apply parse_log_timestamps].
Qed.

(** ** Growing logs *)

Lemma opens_of_app old more :
  well_terminated old → opens_of (old ++ more) = opens_of old ++ opens_of more.
Proof. intros H. unfold opens_of. by rewrite readlines_app, parse_log_app. Qed.

Lemma unique_emails_app_le a b : unique_emails a <= unique_emails (a ++ b).
Proof.
  unfold unique_emails, len_set. rewrite fmap_app.
  assert (size (list_to_set (tracking_id <$> a) : gset (list N))
          ≤ size (list_to_set ((tracking_id <$> a) ++ (tracking_id <$> b)) : gset (list N)))%nat
    by (apply subseteq_size; set_solver).
  lia.
Qed.

(** X2.  When the log is empty or ends with a line feed, the records of
    the log extended by any text are the old records followed by those
    of the added text: [total_opens] is the sum of the two counts and
    [unique_emails] lies between the old count and the sum of the two. *)
Theorem counts_grow_with_the_log (old more : list N) :
  well_terminated old →
  opens_of (old ++ more) = opens_of old ++ opens_of more
  ∧ total_opens (opens_of (old ++ more))
    = total_opens (opens_of old) + total_opens (opens_of more)
  ∧ unique_emails (opens_of old) <= unique_emails (opens_of (old ++ more))
  ∧ unique_emails (opens_of (old ++ more))
    <= unique_emails (opens_of old) + unique_emails (opens_of more).
Proof.
  intros Hold. rewrite opens_of_app by done.
  split; [done|]. split; [|split].
  - unfold total_opens, len. rewrite length_app. lia.
  - apply unique_emails_app_le.
  - unfold unique_emails, len_set. rewrite fmap_app, list_to_set_app_L.
    pose proof (size_union_alt (list_to_set (tracking_id <$> opens_of old) : gset (list N))
                  (list_to_set (tracking_id <$> opens_of more))) as Hs.
    assert (size (list_to_set (tracking_id <$> opens_of more)
                  ∖ list_to_set (tracking_id <$> opens_of old) : gset (list N))
            ≤ size (list_to_set (tracking_id <$> opens_of more) : gset (list N)))%nat
      by (apply subseteq_size; set_solver).
    lia.
Qed.

Lemma counts_grow_with_the_log_witness :
  opens_of ((earlier_line ++ [LF]) ++ call_entry sample_call)
  = opens_of (earlier_line ++ [LF]) ++ opens_of (call_entry sample_call).
Proof.
  apply (counts_grow_with_the_log (earlier_line ++ [LF]) (call_entry sample_call)).
  right. by exists earlier_line.
Defined.

Lemma opens_of_call_entry c :
  call_ok c →
  ∃ p2 p3, opens_of (call_entry c)
           = [OpenEvent (isoformat (now (call_env c))) (call_id c) p2 p3].
Proof.
  intros Hok.
  assert (Forall call_ok [c]) as Hc by (by constructor).
  pose proof (readlines_entries [c] Hc) as Hr.
  simpl in Hr. rewrite app_nil_r in Hr. unfold opens_of. rewrite Hr.
  destruct Hok as (_ & (Hid & _) & _).
  destruct (parse_entry (isoformat (now (call_env c))) (call_id c) (call_ip c)
              (call_user_agent c)) as (p2 & p3 & Hp); [apply isoformat_plain|done|].
  exists p2, p3. unfold call_entry. by rewrite Hp, lstrip_isoformat.
Qed.

Lemma unique_emails_snoc opens r :
  unique_emails (opens ++ [r])
  = if decide (tracking_id r ∈ tracking_id <$> opens)
    then unique_emails opens else unique_emails opens + 1.
Proof.
  unfold unique_emails, len_set. rewrite fmap_app, list_to_set_app_L. simpl.
  rewrite union_empty_r_L. case_decide as Hin.
  - f_equal. f_equal. apply leibniz_equiv. set_solver.
  - rewrite size_union, size_singleton by set_solver. lia.
Qed.

Lemma serve_pixel_log w c :
  append_fault (call_env c) = None →
  serve_pixel w c
  = World (Some (default [] (log_file w) ++ call_entry c)) (stdout w).
Proof. intros H. unfold serve_pixel. rewrite track_pixel_eq, H. by destruct c. Qed.

Lemma call_entry_terminated old c : well_terminated (old ++ call_entry c).
Proof.
  right. exists (old ++ isoformat (now (call_env c)) ++ [PIPE] ++ call_id c ++ [PIPE]
                   ++ format_value (call_ip c) ++ [PIPE]
                   ++ format_value (call_user_agent c)).
  unfold call_entry, log_entry. by rewrite <- !app_assoc.
Qed.

Lemma opens_after_one_request (w : world) (c : call) :
  call_ok c →
  default [] (log_file (serve_pixel w c)) = default [] (log_file w) ++ call_entry c
  ∧ (well_terminated (default [] (log_file w)) →
     ∃ r, opens_of (default [] (log_file (serve_pixel w c)))
          = opens_of (default [] (log_file w)) ++ [r]
          ∧ tracking_id r = call_id c
          ∧ timestamp r = isoformat (now (call_env c))).
Proof.
  intros Hok.
  assert (append_fault (call_env c) = None) as Hfault by apply Hok.
  assert (default [] (log_file (serve_pixel w c))
          = default [] (log_file w) ++ call_entry c) as Hlog.
  { by rewrite serve_pixel_log. }
  split; [done|]. intros Hterm.
  destruct (opens_of_call_entry c Hok) as (p2 & p3 & Hentry).
  exists (OpenEvent (isoformat (now (call_env c))) (call_id c) p2 p3).
  by rewrite Hlog, opens_of_app, Hentry.
Qed.

(** X3.  On a log that is empty or ends with a line feed, a successful
    request with a plain id and one-line metadata adds exactly one record
    at the end, carrying the id and the timestamp of the request:
    [total_opens] grows by one, [unique_emails] grows by one when the id
    was not in the log and stays otherwise, and the new log again ends
    with a line feed. *)
Theorem one_request_adds_one_record (w : world) (c : call) :
  well_terminated (default [] (log_file w)) →
  call_ok c →
  let old := opens_of (default [] (log_file w)) in
  let new := opens_of (default [] (log_file (serve_pixel w c))) in
  (∃ r, new = old ++ [r]
        ∧ tracking_id r = call_id c
        ∧ timestamp r = isoformat (now (call_env c)))
  ∧ total_opens new = total_opens old + 1
  ∧ unique_emails new
    = (if decide (call_id c ∈ tracking_id <$> old)
       then unique_emails old else unique_emails old + 1)
  ∧ well_terminated (default [] (log_file (serve_pixel w c))).
Proof.
  intros Hterm Hok old new.
  destruct (opens_after_one_request w c Hok) as (Hlog & Hone).
  destruct (Hone Hterm) as (r & Hnew & Hid & Hts).
  fold old new in Hnew.
  split; [by exists r|]. rewrite Hnew, <- Hid. split; [|split].
  - unfold total_opens, len. rewrite length_app. simpl. lia.
  - apply unique_emails_snoc.
  - rewrite Hlog. apply call_entry_terminated.
Qed.

Lemma one_request_adds_one_record_witness :
  total_opens (opens_of (default [] (log_file (serve_pixel logged_world sample_call))))
  = total_opens (opens_of (default [] (log_file logged_world))) + 1.
Proof.
  apply (one_request_adds_one_record logged_world sample_call).
  - right. by exists earlier_line.
  - by_computation.
Defined.

Lemma recent_opens_snoc opens r :
  recent_opens (opens ++ [r])
  = r :: reverse (drop (length opens + 1 - 50) opens).
Proof.
  unfold recent_opens, slice_last. rewrite length_app. simpl.
  rewrite drop_app_le by lia. by rewrite reverse_app.
Qed.

(** X4.  After such a request the stats handler, when it can read the
    log and the records fit a list, answers 200 with the page; the first
    row of the table is the request just made, and the page holds its id
    as it was sent, between two cell separators, without escaping. *)
Theorem stats_page_after_a_request (E : env) (w : world) (c : call) :
  well_terminated (default [] (log_file w)) →
  call_ok c →
  read_fault E = None →
  let w' := serve_pixel w c in
  let opens := opens_of (default [] (log_file w')) in
  (Z.of_N (total_opens opens) <= maxsize)%Z →
  ∃ rate r rest before after,
    fst (view_stats E w')
    = Body (stats_html (total_opens opens) (unique_emails opens) rate (r :: rest))
    ∧ status_code (make_response (fst (view_stats E w'))) = 200%nat
    ∧ recent_opens opens = r :: rest
    ∧ tracking_id r = call_id c
    ∧ timestamp r = isoformat (now (call_env c))
    ∧ stats_html (total_opens opens) (unique_emails opens) rate (r :: rest)
      = before ++ row_next_cell ++ call_id c ++ row_next_cell ++ after.
Proof.
  intros Hterm Hok Hread w' opens Hmax.
  destruct (opens_after_one_request w c Hok) as (_ & Hone).
  destruct (Hone Hterm) as (r & Hnew & Hid & Hts).
  fold w' opens in Hnew.
  assert (append_fault (call_env c) = None) as Hfault by apply Hok.
  assert (log_file w' = Some (default [] (log_file w) ++ call_entry c)) as Hlog.
  { unfold w'. by rewrite serve_pixel_log. }
  assert (opens ≠ []) as Hne.
  { rewrite Hnew. intros H. apply (f_equal length) in H.
    rewrite length_app in H. simpl in H. lia. }
  destruct (open_rate_ok opens Hne Hmax) as (q & rate & _ & Hrate & _ & _).
  set (rest := reverse (drop (length (opens_of (default [] (log_file w))) + 1 - 50)
                          (opens_of (default [] (log_file w))))).
  exists (format_1f rate), r, rest,
    (html_head ++ str_of_int (total_opens opens) ++ html_after_total
       ++ str_of_int (unique_emails opens) ++ html_after_unique ++ format_1f rate
       ++ html_after_rate ++ row_open ++ slice_to 19 (timestamp r)),
    (ip r ++ row_next_cell ++ slice_to 80 (user_agent r) ++ row_close
       ++ concat (html_row <$> rest) ++ html_tail).
  assert (recent_opens opens = r :: rest) as Hrecent.
  { rewrite Hnew. apply recent_opens_snoc. }
  assert (fst (view_stats E w')
          = Body (stats_html (total_opens opens) (unique_emails opens) (format_1f rate)
                    (recent_opens opens))) as Hpage.
  { rewrite view_stats_eq, Hlog, Hread. simpl.
    unfold opens. rewrite Hlog. simpl. unfold rendered.
    unfold opens in Hrate. rewrite Hlog in Hrate. simpl in Hrate. by rewrite Hrate. }
  rewrite Hpage, Hrecent. repeat (split; [done|]).
  unfold stats_html. rewrite fmap_cons. cbn [concat]. unfold html_row at 1.
  rewrite Hid. by rewrite <- !app_assoc.
Qed.

Lemma stats_page_after_a_request_witness :
  status_code (make_response
                 (fst (view_stats sample_env (serve_pixel logged_world sample_call))))
  = 200%nat.
Proof.
  destruct (stats_page_after_a_request sample_env logged_world sample_call)
    as (rate & r & rest & before & after & _ & Hstatus & _).
  - right. by exists earlier_line.
  - by_computation.
  - reflexivity.
  - vm_compute. discriminate.
  - exact Hstatus.
Defined.

(** X5.  A sequence of requests whose writes all succeed leaves the log
    it found followed by the lines of the requests, in the order of the
    requests, and prints nothing; an empty sequence leaves the log as it
    was, absent if it was absent. *)
Theorem requests_append_in_order (calls : list call) (w : world) :
  Forall (λ c, append_fault (call_env c) = None) calls →
  log_file (serve_pixels calls w)
  = match calls with
    | [] => log_file w
    | _ :: _ => Some (default [] (log_file w) ++ concat (call_entry <$> calls))
    end
  ∧ stdout (serve_pixels calls w) = stdout w.
Proof.
  intros Hok. destruct (serve_pixels_log calls w Hok) as (Hlog & Hout & Hsome).
  split; [|done]. destruct calls as [|c calls]; [done|].
  destruct (Hsome ltac:(done)) as [content Hc]. rewrite Hc in *. simpl in Hlog.
  by rewrite Hlog.
Qed.

Lemma requests_append_in_order_witness :
  log_file (serve_pixels distinct_calls logged_world)
  = Some ((earlier_line ++ [LF]) ++ concat (call_entry <$> distinct_calls))
  ∧ stdout (serve_pixels distinct_calls logged_world) = [].
Proof.
  apply (requests_append_in_order distinct_calls logged_world). by_computation.
Defined.




(** ** Ids that hold a delimiter or a line break *)

Lemma track_pixel_log E req tid w :
  append_fault E = None →
  default [] (log_file (snd (track_pixel E req tid w)))
  = default [] (log_file w)
    ++ log_entry (isoformat (now E)) tid
         (headers_get (x_forwarded_for req) (remote_addr req))
         (headers_get (user_agent_header req) (Some (lit "Unknown"))).
Proof. intros H. by rewrite track_pixel_eq, H. Qed.

Lemma opens_of_one_line body :
  (LF ∉ body) → (CR ∉ body) → opens_of (body ++ [LF]) = parse_log [body ++ [LF]].
Proof.
  intros HLF HCR. unfold opens_of, readlines. rewrite translate_newlines_id.
  - by rewrite (splitlines_keepends_line body [] HLF).
  - rewrite not_elem_of_app. split; [done|].
    apply not_elem_of_cons. split; [done|apply not_elem_of_nil].
Qed.

(** The record read from a line whose id holds one delimiter. *)
Lemma opens_of_shifted_entry ts a b ip ua :
  plain ts → lstrip ts = ts → plain a → plain b → plain (format_value ip) →
  one_line (format_value ua) →
  opens_of (log_entry ts (a ++ [PIPE] ++ b) ip ua)
  = [OpenEvent ts a b (format_value ip)].
Proof.
  intros [Hts [Hts1 Hts2]] Hlts [Ha [Ha1 Ha2]] [Hb [Hb1 Hb2]] [Hip [Hip1 Hip2]] [Hua1 Hua2].
  set (mid := a ++ PIPE :: b ++ PIPE :: format_value ip).
  assert (log_entry ts (a ++ [PIPE] ++ b) ip ua
          = ts ++ PIPE :: mid ++ PIPE :: format_value ua ++ [LF]) as Hentry.
  { unfold log_entry, mid. repeat (rewrite <- ?app_assoc; cbn [app]). done. }
  assert (ts ++ PIPE :: mid ++ PIPE :: format_value ua ++ [LF]
          = (ts ++ PIPE :: mid ++ PIPE :: format_value ua) ++ [LF]) as Hbody.
  { repeat (rewrite <- ?app_assoc; cbn [app]). done. }
  rewrite Hentry, Hbody, opens_of_one_line.
  - rewrite <- Hbody, parse_log_one, strip_entry, Hlts. unfold mid.
    repeat (rewrite <- ?app_assoc; cbn [app]).
    by rewrite !split_app by done.
  - unfold mid. absent.
  - unfold mid. absent.
Qed.

(** X7.  On a log that is empty or ends with a line feed, a request
    whose write succeeds and whose id is [a|b], with [a], [b] and the
    address free of delimiters and line breaks and the user agent free of
    line breaks, adds exactly one record: its id is [a], [b] stands in
    the place of the address and the address in the place of the user
    agent; the user agent itself is dropped. *)
Theorem delimiter_in_id_shifts_fields
    (E : env) (req : request) (a b : list N) (w : world) :
  let ip := headers_get (x_forwarded_for req) (remote_addr req) in
  let user_agent := headers_get (user_agent_header req) (Some (lit "Unknown")) in
  well_terminated (default [] (log_file w)) →
  append_fault E = None →
  plain a → plain b → plain (format_value ip) → one_line (format_value user_agent) →
  opens_of (default [] (log_file (snd (track_pixel E req (a ++ [PIPE] ++ b) w))))
  = opens_of (default [] (log_file w))
    ++ [OpenEvent (isoformat (now E)) a b (format_value ip)].
Proof.
  intros ip user_agent Hterm Hok Ha Hb Hip Hua.
  rewrite track_pixel_log, opens_of_app by done. f_equal.
  apply opens_of_shifted_entry; try done.
  - apply isoformat_plain.
  - apply lstrip_isoformat.
Qed.

Lemma delimiter_in_id_shifts_fields_witness :
  opens_of (default [] (log_file (snd (track_pixel sample_env sample_request
                                         (lit "a" ++ [PIPE] ++ lit "b") empty_world))))
  = opens_of (default [] (log_file empty_world))
    ++ [OpenEvent (isoformat sample_clock) (lit "a") (lit "b") (lit "10.0.0.1")].
Proof.
  apply (delimiter_in_id_shifts_fields sample_env sample_request (lit "a") (lit "b")
           empty_world).
  - by left.
  - reflexivity.
  - by_computation.
  - by_computation.
  - by_computation.
  - by_computation.
Defined.

Lemma translate_newlines_CR x y :
  (CR ∉ x) → (CR ∉ y) → head y ≠ Some LF →
  translate_newlines (x ++ CR :: y) = x ++ LF :: y.
Proof.
  intros Hx Hy Hhead. induction x as [|c x IH].
  - cbn [app translate_newlines]. rewrite N.eqb_refl.
    destruct y as [|d y']; [done|].
    destruct (N.eqb_spec d LF) as [->|_]; [done|].
    by rewrite translate_newlines_id.
  - apply not_elem_of_cons in Hx as [Hc Hx].
    change ((c :: x) ++ CR :: y) with (c :: (x ++ CR :: y)).
    cbn [translate_newlines]. destruct (N.eqb_spec c CR) as [->|_]; [done|].
    by rewrite IH.
Qed.

Lemma count_char_absent c s : (c ∉ s) → count_char c s = 0%nat.
Proof.
  unfold count_char. induction s as [|d s IH]; intros H; [done|].
  apply not_elem_of_cons in H as [Hd Hs].
  rewrite filter_cons, decide_False by done. by apply IH.
Qed.

Lemma count_char_cons_same c s : count_char c (c :: s) = S (count_char c s).
Proof. unfold count_char. by rewrite filter_cons, decide_True. Qed.

Lemma parse_log_few_delimiters line :
  (count_char PIPE line < 3)%nat → parse_log [line] = [].
Proof.
  intros H. apply parse_log_short. rewrite split_strip_length, split_length. lia.
Qed.

(** The two lines an entry breaks into when its id holds a line break
    give no record. *)
Lemma opens_of_broken_entry ts a b nl ip ua :
  nl = LF ∨ nl = CR →
  plain ts → plain a → plain b → plain (format_value ip) → plain (format_value ua) →
  opens_of (log_entry ts (a ++ [nl] ++ b) ip ua) = [].
Proof.
  intros Hnl [Hts [Hts1 Hts2]] [Ha [Ha1 Ha2]] [Hb [Hb1 Hb2]] [Hip [Hip1 Hip2]]
    [Hua [Hua1 Hua2]].
  set (x := ts ++ PIPE :: a).
  set (y := b ++ PIPE :: format_value ip ++ PIPE :: format_value ua).
  assert (log_entry ts (a ++ [nl] ++ b) ip ua = x ++ nl :: y ++ [LF]) as Hentry.
  { unfold log_entry, x, y. repeat (rewrite <- ?app_assoc; cbn [app]). done. }
  assert (LF ∉ x) as HxLF by (unfold x; absent).
  assert (CR ∉ x) as HxCR by (unfold x; absent).
  assert (LF ∉ y) as HyLF by (unfold y; absent).
  assert (CR ∉ y ++ [LF]) as HyCR by (unfold y; absent).
  assert (translate_newlines (x ++ nl :: y ++ [LF]) = x ++ LF :: y ++ [LF]) as Htr.
  { destruct Hnl as [-> | ->].
    - apply translate_newlines_id. absent.
    - apply translate_newlines_CR; [done..|].
      unfold y. destruct b as [|d b]; simpl; [done|].
      apply not_elem_of_cons in Hb1 as [? _]. congruence. }
  unfold opens_of, readlines. rewrite Hentry, Htr.
  rewrite (splitlines_keepends_line x _ HxLF), (splitlines_keepends_line y [] HyLF).
  cbn [splitlines_keepends].
  rewrite parse_log_cons, !parse_log_few_delimiters; [done| |].
  - unfold y. rewrite <- !app_assoc. cbn [app].
    repeat (rewrite count_char_app || rewrite count_char_cons_same).
    rewrite !count_char_absent by absent. simpl. lia.
  - unfold x. rewrite <- !app_assoc. cbn [app].
    repeat (rewrite count_char_app || rewrite count_char_cons_same).
    rewrite !count_char_absent by absent. simpl. lia.
Qed.

(** X8.  On a log that is empty or ends with a line feed, a request
    whose write succeeds and whose id is [a], a line feed or a carriage
    return, then [b], with [a], [b], the address and the user agent free
    of delimiters and line breaks, adds no record at all: the two lines
    it writes have two and three parts.  When the log held no record
    before and can be read, the stats handler then still answers 500
    with [division by zero]. *)
Theorem line_break_in_id_loses_the_open
    (E : env) (req : request) (a b : list N) (nl : N) (w : world) :
  let ip := headers_get (x_forwarded_for req) (remote_addr req) in
  let user_agent := headers_get (user_agent_header req) (Some (lit "Unknown")) in
  let w' := snd (track_pixel E req (a ++ [nl] ++ b) w) in
  nl = LF ∨ nl = CR →
  well_terminated (default [] (log_file w)) →
  append_fault E = None →
  plain a → plain b → plain (format_value ip) → plain (format_value user_agent) →
  opens_of (default [] (log_file w')) = opens_of (default [] (log_file w))
  ∧ (opens_of (default [] (log_file w)) = [] → read_fault E = None →
       fst (view_stats E w')
       = BodyStatus (lit "<h1>Error: division by zero</h1>") 500).
Proof.
  intros ip user_agent w' Hnl Hterm Hok Ha Hb Hip Hua.
  assert (opens_of (default [] (log_file w')) = opens_of (default [] (log_file w)))
    as Hsame.
  { unfold w'. rewrite track_pixel_log, opens_of_app by done.
    rewrite opens_of_broken_entry, app_nil_r; try done. apply isoformat_plain. }
  split; [done|]. intros Hempty Hread.
  assert (∃ content, log_file w' = Some content) as [content Hcontent].
  { unfold w'. rewrite track_pixel_eq, Hok. by eexists. }
  rewrite Hcontent in Hsame. simpl in Hsame.
  rewrite view_stats_eq, Hcontent, Hread. unfold rendered.
  by rewrite open_rate_zero by congruence.
Qed.

Lemma line_break_in_id_loses_the_open_witness :
  opens_of (default [] (log_file (snd (track_pixel sample_env sample_request
                                         (lit "a" ++ [CR] ++ lit "b") logged_world))))
  = opens_of (default [] (log_file logged_world)).
Proof.
  apply (line_break_in_id_loses_the_open sample_env sample_request (lit "a") (lit "b")
           CR logged_world).
  - by right.
  - right. by exists earlier_line.
  - reflexivity.
  - by_computation.
  - by_computation.
  - by_computation.
  - by_computation.
Defined.

(** ** Routes *)








(** ** Timestamps as displayed *)

Lemma padded_length_below w bound n :
  forallb (λ n, length (padded w n) =? w)%nat (seq 0 bound) = true →
  (n < bound)%nat → length (padded w n) = w.
Proof.
  intros Hall Hn. rewrite forallb_forall in Hall.
  apply Nat.eqb_eq, Hall, in_seq. lia.
Qed.

Lemma padded_2_length n : (n < 100)%nat → length (padded 2 n) = 2%nat.
Proof. apply padded_length_below. vm_compute. reflexivity. Qed.

Lemma padded_4_length n : (n < 10000)%nat → length (padded 4 n) = 4%nat.
Proof. apply padded_length_below. vm_compute. reflexivity. Qed.

Lemma isoformat_seconds_length d :
  clock_in_range d → length (isoformat (without_microseconds d)) = 19%nat.
Proof.
  intros (Hy & Hm & Hd & Hh & Hmi & Hs). unfold isoformat, without_microseconds.
  cbn [year month day hour minute second microsecond Nat.eqb].
  rewrite !length_app, padded_4_length, !padded_2_length by done. done.
Qed.

Lemma isoformat_split d :
  isoformat d
  = isoformat (without_microseconds d)
    ++ (if (microsecond d =? 0)%nat then []
        else lit "." ++ padded 6 (microsecond d)).
Proof.
  unfold isoformat, without_microseconds.
  cbn [year month day hour minute second microsecond Nat.eqb].
  rewrite app_nil_r. by rewrite <- !app_assoc.
Qed.

(** X10.  For a clock reading whose fields fill their columns, the 19
    characters the table shows of its timestamp are the timestamp of the
    same instant without microseconds, so two opens within one second
    are shown alike; a reading without microseconds is shown whole. *)
Theorem displayed_timestamp_drops_microseconds
    (d : datetime) (tid addr agent : list N) :
  clock_in_range d →
  take 19 (isoformat d) = isoformat (without_microseconds d)
  ∧ html_row (OpenEvent (isoformat d) tid addr agent)
    = html_row (OpenEvent (isoformat (without_microseconds d)) tid addr agent)
  ∧ (microsecond d = 0%nat → take 19 (isoformat d) = isoformat d).
Proof.
  intros Hd.
  assert (take 19 (isoformat d) = isoformat (without_microseconds d)) as Htake.
  { rewrite isoformat_split. rewrite take_app_length'; [done|].
    symmetry. by apply isoformat_seconds_length. }
  assert (take 19 (isoformat (without_microseconds d))
          = isoformat (without_microseconds d)) as Htake0.
  { apply take_ge. by rewrite isoformat_seconds_length. }
  split; [done|]. split.
  - unfold html_row, slice_to. cbn [timestamp tracking_id ip user_agent].
    by rewrite Htake, Htake0.
  - intros H0. rewrite Htake. rewrite (isoformat_split d), H0. simpl.
    by rewrite app_nil_r.
Qed.

Lemma displayed_timestamp_drops_microseconds_witness :
  take 19 (isoformat sample_clock) = isoformat (without_microseconds sample_clock).
Proof.
  apply (displayed_timestamp_drops_microseconds sample_clock [] [] []).
  repeat split; apply Nat.ltb_lt; vm_compute; reflexivity.
Defined.

(** ** The rate of one email *)

Section Exact.

Local Open Scope Z_scope.

Lemma round_half_even_exact x q : 0 < q → round_half_even (x * q) q = x.
Proof.
  intros Hq. unfold round_half_even. cbv zeta.
  rewrite Z.div_mul, Z_mod_mult by lia.
  destruct (Z.ltb_spec (2 * 0) q); [done|lia].
Qed.

(** An integer below [2^53], given as a quotient, is represented
    exactly. *)
Lemma binary64_exact v q :
  0 < v < 2 ^ 53 → 0 < q →
  ∃ k, 0 <= k <= 52 ∧ binary64 (v * q) q = Finite (v * 2 ^ (52 - k)) (k - 52).
Proof.
  intros Hv Hq.
  destruct (floor_log2_ratio_spec (v * q) q Hq ltac:(nia)) as (Hk0 & Hlo & Hhi).
  set (k := floor_log2_ratio (v * q) q) in *.
  assert (0 < 2 ^ k) as Hpk by (apply Z.pow_pos_nonneg; lia).
  assert (2 ^ k <= v) as Hkv by nia.
  assert (k <= 52) as Hk52.
  { destruct (Z.le_gt_cases k 52) as [|Hgt]; [done|].
    assert (2 ^ 53 <= 2 ^ k) by (apply Z.pow_le_mono_r; lia). lia. }
  exists k. split; [lia|]. unfold binary64.
  destruct (Z.eqb_spec (v * q) 0) as [|_]; [nia|]. fold k.
  rewrite Z.max_l by lia.
  assert (0 < 2 ^ (52 - k)) as Hp by (apply Z.pow_pos_nonneg; lia).
  assert ((if 0 <=? k - 52 then round_half_even (v * q) (q * 2 ^ (k - 52))
           else round_half_even (v * q * 2 ^ (- (k - 52))) q)
          = v * 2 ^ (52 - k)) as ->.
  { destruct (Z.leb_spec 0 (k - 52)).
    - assert (k = 52) as -> by lia. change (2 ^ (52 - 52)) with 1.
      rewrite !Z.mul_1_r. by apply round_half_even_exact.
    - replace (- (k - 52)) with (52 - k) by lia.
      replace (v * q * 2 ^ (52 - k)) with (v * 2 ^ (52 - k) * q) by lia.
      by apply round_half_even_exact. }
  assert (v * 2 ^ (52 - k) * 2 ^ (k - 52) < 2 ^ 1024) as Hfin.
  { destruct (Z.eq_dec k 52) as [->|Hne].
    - change (2 ^ (52 - 52)) with 1. assert (2 ^ 53 < 2 ^ 1024) by reflexivity. lia.
    - rewrite (Z.pow_neg_r 2 (k - 52)) by lia. rewrite Z.mul_0_r. reflexivity. }
  by destruct (Z.leb_spec (2 ^ 1024) (v * 2 ^ (52 - k) * 2 ^ (k - 52))); [lia|].
Qed.

Lemma format_1f_exact v k :
  0 <= v → 0 <= k <= 52 →
  format_1f (Finite (v * 2 ^ (52 - k)) (k - 52)) = str_of_int (Z.to_N v) ++ lit ".0".
Proof.
  intros Hv Hk. unfold format_1f. cbv zeta.
  rewrite (Z.max_r (k - 52) 0), (Z.max_l (- (k - 52)) 0) by lia.
  change (2 ^ 0) with 1. rewrite Z.mul_1_r.
  replace (- (k - 52)) with (52 - k) by lia.
  assert (0 < 2 ^ (52 - k)) as Hp by (apply Z.pow_pos_nonneg; lia).
  replace (10 * (v * 2 ^ (52 - k))) with (10 * v * 2 ^ (52 - k)) by lia.
  rewrite round_half_even_exact by done.
  rewrite (Z.mul_comm 10 v), Z.div_mul, Z_mod_mult by lia. done.
Qed.

(** The rate of [n] opens of one email, as the page shows it. *)
Lemma open_rate_single n :
  0 < n → 100 * n < 2 ^ 53 →
  ∃ q, int_true_divide (Z.to_N n) 1 = Ok q
    ∧ format_1f (float_mul q (float_of_int 100))
      = str_of_int (Z.to_N (100 * n)) ++ lit ".0".
Proof.
  intros Hn Hbig. unfold int_true_divide. simpl (1 =? 0)%N. cbv iota.
  rewrite Z2N.id by lia. change (Z.of_N 1) with 1.
  destruct (binary64_exact n 1 ltac:(lia) ltac:(lia)) as (k & Hk & Hq).
  rewrite Z.mul_1_r in Hq. rewrite Hq, float_of_int_100.
  eexists. split; [reflexivity|].
  unfold float_mul. cbv zeta.
  rewrite (Z.max_r (k - 52 + -46) 0), (Z.max_l (- (k - 52 + -46)) 0) by lia.
  change (2 ^ 0) with 1. rewrite Z.mul_1_r.
  assert (0 < 2 ^ (- (k - 52 + -46))) as Hp by (apply Z.pow_pos_nonneg; lia).
  assert (n * 2 ^ (52 - k) * 7036874417766400
          = 100 * n * 2 ^ (- (k - 52 + -46))) as ->.
  { replace (- (k - 52 + -46)) with ((52 - k) + 46) by lia.
    rewrite Z.pow_add_r by lia. change (2 ^ 46) with 70368744177664. lia. }
  destruct (binary64_exact (100 * n) (2 ^ (- (k - 52 + -46))) ltac:(lia) Hp)
    as (k' & Hk' & ->).
  apply format_1f_exact; lia.
Qed.

End Exact.

(** X11.  On an empty or absent log, after N >= 1 requests whose
    writes succeed, which share one id without delimiter, and whose id,
    addresses and user agents hold no line break, the log being readable
    and [100 * N] below [2^53], the page shows N opens, one email and the
    rate [100 * N] followed by [.0]. *)
Theorem page_for_one_email (E : env) (calls : list call) (id : list N) (w : world) :
  default [] (log_file w) = [] →
  Forall call_ok calls →
  calls ≠ [] →
  Forall (λ c, call_id c = id) calls →
  read_fault E = None →
  100 * len calls < 2 ^ 53 →
  let w' := serve_pixels calls w in
  fst (view_stats E w')
  = Body (stats_html (len calls) 1 (str_of_int (100 * len calls) ++ lit ".0")
            (recent_opens (opens_of (default [] (log_file w'))))).
Proof.
  intros Hw Hok Hne Hsame Hread Hbig w'.
  pose proof (opens_after_requests calls w Hw Hok) as Hids. fold w' in Hids.
  destruct (serve_pixels_log calls w) as (_ & _ & Hsome).
  { eapply Forall_impl; [exact Hok|]. by intros c (? & _). }
  destruct (Hsome Hne) as [content Hcontent]. fold w' in Hcontent.
  rewrite Hcontent in *. simpl in Hids |- *.
  set (opens := opens_of content) in *.
  assert (total_opens opens = len calls) as Htotal.
  { unfold total_opens, len. f_equal.
    by rewrite <- (length_fmap tracking_id opens), Hids, length_fmap. }
  assert (unique_emails opens = 1) as Hunique.
  { unfold unique_emails. rewrite Hids. apply len_set_constant with (x := id).
    - by destruct calls.
    - by apply Forall_fmap. }
  assert (0 < len calls) as Hpos.
  { unfold len. destruct calls; [done|]. simpl. lia. }
  assert (0 < Z.of_N (len calls))%Z as HposZ by lia.
  assert (100 * Z.of_N (len calls) < 2 ^ 53)%Z as HbigZ.
  { change (2 ^ 53)%Z with (Z.of_N (2 ^ 53)). lia. }
  destruct (open_rate_single (Z.of_N (len calls)) HposZ HbigZ) as (q & Hq & Htext).
  rewrite N2Z.id in Hq.
  replace (Z.to_N (100 * Z.of_N (len calls))) with (100 * len calls) in Htext by lia.
  rewrite view_stats_eq, Hcontent, Hread. fold opens.
  unfold rendered, open_rate. by rewrite Htotal, Hunique, Hq, Htext.
Qed.

Lemma page_for_one_email_witness :
  fst (view_stats sample_env (serve_pixels repeated_calls empty_world))
  = Body (stats_html (len repeated_calls) 1
            (str_of_int (100 * len repeated_calls) ++ lit ".0")
            (recent_opens (opens_of (default []
               (log_file (serve_pixels repeated_calls empty_world)))))).
Proof.
  apply (page_for_one_email sample_env repeated_calls sample_id empty_world).
  - reflexivity.
  - by_computation.
  - discriminate.
  - by_computation.
  - reflexivity.
  - vm_compute. reflexivity.
Defined.

(** ** Order of the lines *)

Lemma parse_log_Permutation lines1 lines2 :
  lines1 ≡ₚ lines2 → parse_log lines1 ≡ₚ parse_log lines2.
Proof.
  induction 1 as [|x l1 l2 _ IH|x y l|l1 l2 l3 _ IH1 _ IH2].
  - done.
  - rewrite (parse_log_cons x l1), (parse_log_cons x l2). by f_equiv.
  - rewrite (parse_log_cons y (x :: l)), (parse_log_cons x l),
      (parse_log_cons x (y :: l)), (parse_log_cons y l), !app_assoc.
    f_equiv. apply Permutation_app_comm.
  - by etrans.
Qed.

(** X12.  The counts depend on the lines of the log, not on their
    order: two logs with the same lines in another order give the same
    records up to order, the same [total_opens], the same
    [unique_emails] and the same open rate. *)
Theorem counts_ignore_line_order (lines1 lines2 : list (list N)) :
  lines1 ≡ₚ lines2 →
  parse_log lines1 ≡ₚ parse_log lines2
  ∧ total_opens (parse_log lines1) = total_opens (parse_log lines2)
  ∧ unique_emails (parse_log lines1) = unique_emails (parse_log lines2)
  ∧ open_rate (parse_log lines1) = open_rate (parse_log lines2).
Proof.
  intros Hperm. pose proof (parse_log_Permutation _ _ Hperm) as Hp.
  assert (total_opens (parse_log lines1) = total_opens (parse_log lines2)) as Ht.
  { unfold total_opens, len. by rewrite (Permutation_length Hp). }
  assert (unique_emails (parse_log lines1) = unique_emails (parse_log lines2)) as Hu.
  { unfold unique_emails, len_set. do 2 f_equal.
    apply list_to_set_perm_L. by apply fmap_Permutation. }
  split; [done|]. split; [done|]. split; [done|].
  unfold open_rate. by rewrite Ht, Hu.
Qed.

Lemma counts_ignore_line_order_witness :
  unique_emails (parse_log [earlier_line ++ [LF]; call_entry sample_call])
  = unique_emails (parse_log [call_entry sample_call; earlier_line ++ [LF]]).
Proof.
  apply (counts_ignore_line_order
           [earlier_line ++ [LF]; call_entry sample_call]
           [call_entry sample_call; earlier_line ++ [LF]]).
  apply perm_swap.
Defined.
